(** * Image-Transition: the mesh morphing engine of [myscript.js]

    A shallow embedding of the [Triangulator] class, of [warpImage], of the
    drag callback of the [triangulator] component and of the methods of the
    main Vue instance ([clear], [stopAnim], [warp], [onAdded], [onSelected],
    [onDeleted]), followed by the properties that hold of them.

    JavaScript numbers are idealised as rationals ([Q]); two numbers are the
    same number when they are [Qeq].  The arithmetic of [ImageRenderer],
    whose results depend on the rounding of the engine, is left to
    parameters.  Arrays are lists, [undefined] is an explicit constructor
    wherever the code can read past the end of an array. *)

From Stdlib Require Import String Ascii ZArith QArith Qround Qminmax Bool List Lia.
From Stdlib Require Import DecimalString Lqa.
From Equations Require Import Equations.
Import ListNotations.

Local Open Scope Q_scope.

(* ===================================================================== *)
(** * Numbers and coordinates *)
(* ===================================================================== *)

(** [Math.round]: the nearest integer, halves going up. *)
Definition Math_round (x : Q) : Q := inject_Z (Qfloor (x + (1 # 2))).

(** A coordinate array [[x, y]]. *)
Definition Coord : Type := (Q * Q)%type.

(** The same point of the plane: both numbers equal. *)
Definition coord_eq (a b : Coord) : Prop := fst a == fst b /\ snd a == snd b.

(** [coord.map(Math.round)] *)
Definition round_coord (c : Coord) : Coord := (Math_round (fst c), Math_round (snd c)).

(** Modelled from the spec: [ABOUtils.Math.clamp(x, min, max)] is a function
    of the abo-utils library, which is not part of the sources; the spec
    has the coordinate "clamped to [0,width] x [0,height]", that is, [x]
    brought into the interval from [min] to [max]. *)
Definition clamp (x lo hi : Q) : Q := Qmax lo (Qmin x hi).

(** The interpolation of two numbers, [a + t*(b - a)]. *)
Definition lerp_num (a b t : Q) : Q := a + t * (b - a).

Definition lerp_coord (a b : Coord) (t : Q) : Coord :=
  (lerp_num (fst a) (fst b) t, lerp_num (snd a) (snd b) t).

(** Modelled from the spec: [ABOUtils.Math.lerp] is a function of the
    abo-utils library, which is not part of the sources; the spec gives it
    as "the per-coordinate linear interpolation co1 + t*(co2 - co1)".  The
    two coordinate lists are interpolated position by position.  The spec
    does not say what happens when one list is longer than the other; here
    the positions both lists have are interpolated, and the statements
    below that depend on it are about lists of the same length. *)
Fixpoint lerp (co1 co2 : list Coord) (t : Q) : list Coord :=
  match co1, co2 with
  | a :: co1', b :: co2' => lerp_coord a b t :: lerp co1' co2' t
  | _, _ => []
  end.

(* ===================================================================== *)
(** * class Triangulator *)
(* ===================================================================== *)

(** A point object [{coord, toDelete}]; a missing [toDelete] is falsy and
    is [false] here. *)
Record Point : Type := mkPoint { coord : Coord; toDelete : bool }.

(** [this.size], an object [{w, h}]. *)
Record Size : Type := mkSize { size_w : Q; size_h : Q }.

Record Triangulator : Type := mkTriangulator { size : Size; points : list Point }.

(** [static createPoint(coord)] *)
Definition createPoint (c : Coord) : Point :=
  {| coord := round_coord c; toDelete := false |}.

(** [getEffectivePoints()] *)
Definition getEffectivePoints (T : Triangulator) : list Point :=
  let w := size_w (size T) in
  let h := size_h (size T) in
  let corners := [ createPoint (0, 0); createPoint (w, 0);
                   createPoint (0, h); createPoint (w, h) ] in
  corners ++ filter (fun p => negb (toDelete p)) (points T).

(** [addPoint(coord)] *)
Definition addPoint (T : Triangulator) (c : Coord) : Triangulator :=
  {| size := size T; points := points T ++ [createPoint c] |}.

(** A value found in a triangle or in an edge: [getTriangles] yields index
    triples or coordinate triples according to its argument, and an array
    read past the end yields [undefined]. *)
Inductive Vertex : Type :=
| VIndex (i : nat)
| VCoord (c : Coord)
| VUndefined.

Definition Triangle : Type := (Vertex * Vertex * Vertex)%type.
Definition Edge : Type := (Vertex * Vertex)%type.

(** [coords[i]] for a number [i]. *)
Definition coord_at (coords : list Coord) (i : nat) : Vertex :=
  match nth_error coords i with
  | Some c => VCoord c
  | None => VUndefined
  end.

(** The loop [for(let i = 0; i < triangles.length; i += 3)] reading
    [triangles[i]], [triangles[i+1]], [triangles[i+2]]: the last two reads
    are [undefined] ([None]) when the array stops short. *)
Fixpoint triplets (triangles : list nat) : list (option nat * option nat * option nat) :=
  match triangles with
  | [] => []
  | a :: [] => [(Some a, None, None)]
  | a :: b :: [] => [(Some a, Some b, None)]
  | a :: b :: c :: rest => (Some a, Some b, Some c) :: triplets rest
  end.

(** One entry of [[a, b, c]]. *)
Definition index_entry (a : option nat) : Vertex :=
  match a with Some i => VIndex i | None => VUndefined end.

(** One entry of [[coords[a], coords[b], coords[c]]]. *)
Definition coord_entry (coords : list Coord) (a : option nat) : Vertex :=
  match a with Some i => coord_at coords i | None => VUndefined end.

(** The decimal form of an array index. *)
Definition nat_to_string (n : nat) : string := NilZero.string_of_uint (Nat.to_uint n).

(** The state of [getEdges]: the object [drawn], whose keys are kept as a
    list, and the array [edges]. *)
Record EdgeAcc : Type := mkEdgeAcc { drawn : list string; edges : list Edge }.

(** The other two canvas operations of [warpImage]. *)
Inductive CanvasOp : Type :=
| ClearRect (x y w h : Q)
| DrawImageTriangle (s1 s2 s3 d1 d2 d3 : Vertex).

(** [co[i]] inside [t1.map(i => co[i])]: only a number finds an element. *)
Definition resolve (co : list Coord) (i : Vertex) : Vertex :=
  match i with
  | VIndex n => coord_at co n
  | _ => VUndefined
  end.

(** A number is truthy unless it is zero. *)
Definition truthy (t : Q) : bool := negb (Qeq_bool t 0).

Section Triangulation.

(** [Delaunay.triangulate] of the delaunay-fast library: a flat array of
    indices into the array it is given, "arranged in triplets". *)
Variable triangulate : list Coord -> list nat.

(** The string the engine prints for a number. *)
Variable num_to_string : Q -> string.

(** [getTriangles(indexes)] *)
Definition getTriangles (indexes : bool) (T : Triangulator) : list Triangle :=
  let coords := map coord (getEffectivePoints T) in
  let triangles := triangulate coords in
  map (fun '(a, b, c) =>
         if indexes
         then (index_entry a, index_entry b, index_entry c)
         else (coord_entry coords a, coord_entry coords b, coord_entry coords c))
      (triplets triangles).

(** The string a value turns into under [+ '_'] and under [<]: an array is
    joined with commas. *)
Definition vertex_to_string (v : Vertex) : string :=
  match v with
  | VIndex i => nat_to_string i
  | VCoord (x, y) => (num_to_string x ++ "," ++ num_to_string y)%string
  | VUndefined => "undefined"%string
  end.

(** [p1 < p2]: two numbers compare as numbers, two arrays as their strings;
    [undefined], and a number against a coordinate array, compare through
    [NaN] and give [false]. *)
Definition js_lt (p1 p2 : Vertex) : bool :=
  match p1, p2 with
  | VIndex i, VIndex j => Nat.ltb i j
  | VCoord _, VCoord _ => String.ltb (vertex_to_string p1) (vertex_to_string p2)
  | _, _ => false
  end.

(** [(p1 < p2) ? (p1 + '_' + p2) : (p2 + '_' + p1)] *)
Definition edge_key (p1 p2 : Vertex) : string :=
  if js_lt p1 p2
  then (vertex_to_string p1 ++ "_" ++ vertex_to_string p2)%string
  else (vertex_to_string p2 ++ "_" ++ vertex_to_string p1)%string.

(** [addIfNew(p1, p2)] *)
Definition addIfNew (acc : EdgeAcc) (p1 p2 : Vertex) : EdgeAcc :=
  let key := edge_key p1 p2 in
  if existsb (String.eqb key) (drawn acc)
  then acc
  else {| drawn := key :: drawn acc; edges := edges acc ++ [(p1, p2)] |}.

(** The body of [this.getTriangles().forEach(t => ...)]. *)
Definition addTriangle (acc : EdgeAcc) (t : Triangle) : EdgeAcc :=
  let '(t0, t1, t2) := t in
  addIfNew (addIfNew (addIfNew acc t0 t1) t1 t2) t2 t0.

(** [getEdges()]: [getTriangles] is called without argument, so the
    triangles are coordinate triples. *)
Definition getEdges (T : Triangulator) : list Edge :=
  edges (fold_left addTriangle (getTriangles false T) {| drawn := []; edges := [] |}).

(** The coordinates [warpImage] draws to: [co2] after
    [if(lerpT || (lerpT === 0)) { co2 = um.lerp(co1, co2, lerpT); }].
    [lerpT] is [None] when the argument is not given. *)
Definition destCoords (triSource triTarget : Triangulator) (lerpT : option Q) : list Coord :=
  let co1 := map coord (getEffectivePoints triSource) in
  let co2 := map coord (getEffectivePoints triTarget) in
  match lerpT with
  | Some t => if truthy t || Qeq_bool t 0 then lerp co1 co2 t else co2
  | None => co2
  end.

(** [warpImage(img, triSource, triTarget, canvas, lerpT)], as the operations
    it carries out on the canvas, in order. *)
Definition warpImage (triSource triTarget : Triangulator) (lerpT : option Q) : list CanvasOp :=
  let w := size_w (size triTarget) in
  let h := size_h (size triTarget) in
  let tri1 := getTriangles true triSource in
  let tri2 := getTriangles true triTarget in
  let co1 := map coord (getEffectivePoints triSource) in
  let co2 := destCoords triSource triTarget lerpT in
  ClearRect 0 0 w h ::
  map (fun '(i0, i1, i2) =>
         DrawImageTriangle (resolve co1 i0) (resolve co1 i1) (resolve co1 i2)
                           (resolve co2 i0) (resolve co2 i1) (resolve co2 i2))
      tri1.

End Triangulation.

(* ===================================================================== *)
(** * The [triangulator] component: dragging a point *)
(* ===================================================================== *)

(** [deleteThreshold] *)
Definition deleteThreshold : Q := 20.

(** [x < y] on numbers. *)
Definition Qltb (x y : Q) : bool := negb (Qle_bool y x).

(** [arr[index]] for an integer index: [undefined] ([None]) outside the
    array. *)
Definition js_index {A : Type} (arr : list A) (index : Z) : option A :=
  if (index <? 0)%Z then None else nth_error arr (Z.to_nat index).

(** Assignment to a property of [arr[n]]. *)
Fixpoint update_at {A : Type} (n : nat) (f : A -> A) (arr : list A) : list A :=
  match arr, n with
  | [], _ => []
  | x :: rest, O => f x :: rest
  | x :: rest, S n' => x :: update_at n' f rest
  end.

Definition js_update {A : Type} (arr : list A) (index : Z) (f : A -> A) : list A :=
  if (index <? 0)%Z then arr else update_at (Z.to_nat index) f arr.

(** The [callback] given to [dragTracker]: the new point list and the
    position [normPos] sent with the [dragging] event.  [None] is the
    [TypeError] of [point.toDelete = true] on an [undefined] point. *)
Definition dragCallback (T : Triangulator) (index : Z) (pos : Coord)
  : option (Triangulator * Coord) :=
  let x := fst pos in
  let y := snd pos in
  let point := js_index (points T) index in
  if Qltb y (- deleteThreshold)
  then match point with
       | Some _ =>
           Some ({| size := size T;
                    points := js_update (points T) index
                                (fun p => {| coord := coord p; toDelete := true |}) |},
                 pos)
       | None => None
       end
  else
    let w := size_w (size T) in
    let h := size_h (size T) in
    Some (T, (clamp x 0 w, clamp y 0 h)).

(** [onDragging] of the [drag-node] drawn for [points[index]], followed by
    the assignment [p.coord = relCoord] that [v-model="p.coord"] makes of
    the [do_it] event; no [offsetCenter] is given to the node, so
    [relCoord] is the position received. *)
Definition onDragging (T : Triangulator) (index : Z) (normPos : Coord) : Triangulator :=
  {| size := size T;
     points := js_update (points T) index
                 (fun p => {| coord := normPos; toDelete := toDelete p |}) |}.

(** One drag step on the point at [index]: the callback, then the store. *)
Definition dragMove (T : Triangulator) (index : Z) (pos : Coord) : option Triangulator :=
  match dragCallback T index pos with
  | Some (T', normPos) => Some (onDragging T' index normPos)
  | None => None
  end.

(* ===================================================================== *)
(** * The main Vue instance *)
(* ===================================================================== *)

(** [_state] *)
Record State : Type := mkState {
  tri1 : Triangulator;
  tri2 : Triangulator;
  selectedIndex : Z
}.

(** [Array.prototype.splice(n, 1)]: nothing is removed when [n] is past
    the end. *)
Fixpoint splice1 {A : Type} (n : nat) (arr : list A) : list A :=
  match arr, n with
  | [], _ => []
  | _ :: rest, O => rest
  | x :: rest, S n' => x :: splice1 n' rest
  end.

(** [this.$delete(arr, index)].  [$delete] is Vue's, not this
    repository's: the page loads Vue 2.5.3, whose [del] is, for an array
    and a valid array index (an integer that is not negative),
    [arr.splice(index, 1)]; for any other index the array has no such
    property and nothing happens.  It returns nothing and never throws. *)
Definition vue_delete {A : Type} (arr : list A) (index : Z) : list A :=
  if (index <? 0)%Z then arr else splice1 (Z.to_nat index) arr.

(** The point [sourcePoints[i]] read by [onAdded]; the loop only reads
    below the length, so the default is never used. *)
Definition undefined_point : Point := {| coord := (0, 0); toDelete := false |}.

(** The loop of [onAdded]:
    [while(targetPoints.length < sourcePoints.length)
       target.addPoint(sourcePoints[targetPoints.length].coord)]. *)
Equations? onAdded_loop (sourcePoints : list Point) (target : Triangulator)
  : Triangulator by wf (length sourcePoints - length (points target))%nat lt :=
onAdded_loop sourcePoints target
  with lt_dec (length (points target)) (length sourcePoints) => {
  | left _ =>
      onAdded_loop sourcePoints
        (addPoint target
           (coord (nth (length (points target)) sourcePoints undefined_point)));
  | right _ => target }.
Proof.
  simpl. rewrite length_app. simpl. lia.
Qed.

(** [onAdded()] *)
Definition onAdded (st : State) : State :=
  let a := tri1 st in
  let b := tri2 st in
  if Nat.ltb (length (points b)) (length (points a))
  then {| tri1 := a; tri2 := onAdded_loop (points a) b;
          selectedIndex := selectedIndex st |}
  else {| tri1 := onAdded_loop (points b) a; tri2 := b;
          selectedIndex := selectedIndex st |}.

(** [onDeleted(index)] *)
Definition onDeleted (st : State) (index : Z) : State :=
  {| tri1 := {| size := size (tri1 st);
                points := vue_delete (points (tri1 st)) index |};
     tri2 := {| size := size (tri2 st);
                points := vue_delete (points (tri2 st)) index |};
     selectedIndex := selectedIndex st |}.

(** [clear()] *)
Definition clear (st : State) : State :=
  {| tri1 := {| size := size (tri1 st); points := [] |};
     tri2 := {| size := size (tri2 st); points := [] |};
     selectedIndex := selectedIndex st |}.

(** The two meshes of the pair. *)
Inductive MeshId : Type := Tri1 | Tri2.

Definition mesh (m : MeshId) (st : State) : Triangulator :=
  match m with Tri1 => tri1 st | Tri2 => tri2 st end.

(** [this.model.addPoint(coord)] in the component drawn for mesh [m]. *)
Definition modelAddPoint (m : MeshId) (c : Coord) (st : State) : State :=
  match m with
  | Tri1 => {| tri1 := addPoint (tri1 st) c; tri2 := tri2 st;
               selectedIndex := selectedIndex st |}
  | Tri2 => {| tri1 := tri1 st; tri2 := addPoint (tri2 st) c;
               selectedIndex := selectedIndex st |}
  end.

(** The operations that change the number of points: a click that adds a
    point to one mesh and emits [added], and a [deleted] event. *)
Inductive SyncOp : Type :=
| OpAdd (m : MeshId) (c : Coord)
| OpDelete (index : Z).

Definition apply_op (st : State) (op : SyncOp) : State :=
  match op with
  | OpAdd m c => onAdded (modelAddPoint m c st)
  | OpDelete index => onDeleted st index
  end.


(** An animation the host still schedules: the handle [ud.animate] gave
    for it, and the variable [skip] of the [frame] closure it calls. *)
Record Animation : Type := mkAnimation { anim_id : nat; anim_skip : bool }.

(** The Vue instance ([state], [morphAnim]) together with the host's
    animations ([running], and the next handle it will give). *)
Record App : Type := mkApp {
  state : State;
  morphAnim : option nat;
  running : list Animation;
  next_id : nat
}.

(** Modelled from the spec: [ud.animate] and the [cancel] of the handle it
    returns belong to the abo-utils library, which is not part of the
    sources.  After the spec's Morph Animator: [start] "begins a running
    animation", which "continues until t reaches 1 or cancel() is called";
    "cancel() is idempotent and safe to call when already Idle". *)
Definition animate (app : App) : nat * App :=
  (next_id app,
   {| state := state app; morphAnim := morphAnim app;
      running := running app ++ [ {| anim_id := next_id app; anim_skip := false |} ];
      next_id := S (next_id app) |}).

Definition cancel (id : nat) (app : App) : App :=
  {| state := state app; morphAnim := morphAnim app;
     running := filter (fun a => negb (Nat.eqb (anim_id a) id)) (running app);
     next_id := next_id app |}.

(** [stopAnim()] *)
Definition stopAnim (app : App) : App :=
  match morphAnim app with
  | Some id => cancel id app
  | None => app
  end.

(** [warp()]: [this.stopAnim(); this.morphAnim = ud.animate(3000, frame, true);] *)
Definition warp (app : App) : App :=
  let app1 := stopAnim app in
  let '(id, app2) := animate app1 in
  {| state := state app2; morphAnim := Some id;
     running := running app2; next_id := next_id app2 |}.

(** [onSelected(index)] *)
Definition onSelected (app : App) (index : Z) : App :=
  let app1 := stopAnim app in
  {| state := {| tri1 := tri1 (state app1); tri2 := tri2 (state app1);
                 selectedIndex := index |};
     morphAnim := morphAnim app1; running := running app1; next_id := next_id app1 |}.

Definition with_state (app : App) (st : State) : App :=
  {| state := st; morphAnim := morphAnim app;
     running := running app; next_id := next_id app |}.

(** [addPoint(e)] of the component, for a click on the drawing itself:
    the point is added, [added] is emitted, the new point is selected. *)
Definition componentAddPoint (app : App) (m : MeshId) (c : Coord) : App :=
  let st1 := modelAddPoint m c (state app) in
  let st2 := onAdded st1 in
  onSelected (with_state app st2) (Z.of_nat (length (points (mesh m st2))) - 1)%Z.

(** What a frame writes: operations on canvas [#c1], on canvas [#c2], and
    [c2.style.opacity = t]. *)
Inductive Output : Type :=
| OnC1 (op : CanvasOp)
| OnC2 (op : CanvasOp)
| OpacityC2 (t : Q).

Section Animator.

Variable triangulate : list Coord -> list nat.

(** [frame(t)] inside [warp()]: the new value of [skip] and what is
    written. *)
Definition frame (skip : bool) (st : State) (t : Q) : bool * list Output :=
  let skip := negb skip in
  if skip then (skip, [])
  else (skip,
        map OnC1 (warpImage triangulate (tri1 st) (tri2 st) (Some t))
        ++ map OnC2 (warpImage triangulate (tri2 st) (tri1 st) (Some (1 - t)))
        ++ [OpacityC2 t]).

(** One call by the host of the frame callback of animation [id], at
    progress [t]; an animation whose [t] has reached 1 is not scheduled
    again. *)
Definition tick (app : App) (id : nat) (t : Q) : App * list Output :=
  match find (fun a => Nat.eqb (anim_id a) id) (running app) with
  | None => (app, [])
  | Some a =>
      let '(skip, out) := frame (anim_skip a) (state app) t in
      let others := filter (fun a => negb (Nat.eqb (anim_id a) id)) (running app) in
      ({| state := state app; morphAnim := morphAnim app;
          running := if Qle_bool 1 t then others
                     else others ++ [ {| anim_id := id; anim_skip := skip |} ];
          next_id := next_id app |},
       out)
  end.

(** What can happen to the application. *)
Inductive Event : Type :=
| EvWarp
| EvImageChanged
| EvSelected (index : Z)
| EvAdd (m : MeshId) (c : Coord)
| EvDeleted (index : Z)
| EvClear
| EvTick (id : nat) (t : Q).

Definition step (app : App) (ev : Event) : App :=
  match ev with
  | EvWarp => warp app
  | EvImageChanged => stopAnim app
  | EvSelected index => onSelected app index
  | EvAdd m c => componentAddPoint app m c
  | EvDeleted index => with_state app (onDeleted (state app) index)
  | EvClear => with_state app (clear (state app))
  | EvTick id t => fst (tick app id t)
  end.

Definition run (app : App) (evs : list Event) : App := fold_left step evs app.

End Animator.

(** The application as the page starts it: no animation yet. *)
Definition initial_app (st : State) : App :=
  {| state := st; morphAnim := None; running := []; next_id := 0 |}.

(* ===================================================================== *)
(** * The rest of a drag: several moves, and the release *)
(* ===================================================================== *)

(** The state with mesh [m] replaced. *)
Definition set_mesh (m : MeshId) (T : Triangulator) (st : State) : State :=
  match m with
  | Tri1 => {| tri1 := T; tri2 := tri2 st; selectedIndex := selectedIndex st |}
  | Tri2 => {| tri1 := tri1 st; tri2 := T; selectedIndex := selectedIndex st |}
  end.

(** One drag step in the component drawn for mesh [m]: [that.points] is the
    point list of that mesh. *)
Definition dragMoveIn (m : MeshId) (st : State) (index : Z) (pos : Coord) : option State :=
  match dragMove (mesh m st) index pos with
  | Some T' => Some (set_mesh m T' st)
  | None => None
  end.

(** The drag steps of one gesture, in order; a [TypeError] ends them. *)
Fixpoint dragMoves (T : Triangulator) (index : Z) (poss : list Coord) : option Triangulator :=
  match poss with
  | [] => Some T
  | pos :: rest =>
      match dragMove T index pos with
      | Some T' => dragMoves T' index rest
      | None => None
      end
  end.

(** [callbackDragEnd]: [if(point.toDelete) { that.deletePoint(index) }],
    and [deletePoint] emits [deleted], which the main instance answers
    with [onDeleted].  [None] is the [TypeError] of reading [toDelete] of
    an [undefined] point. *)
Definition dragEnd (m : MeshId) (st : State) (index : Z) : option State :=
  match js_index (points (mesh m st)) index with
  | Some point => Some (if toDelete point then onDeleted st index else st)
  | None => None
  end.

(** A whole gesture on the point at [index] of mesh [m]: the drag steps,
    then the release. *)
Definition dragGesture (m : MeshId) (st : State) (index : Z) (poss : list Coord)
  : option State :=
  match dragMoves (mesh m st) index poss with
  | Some T' => dragEnd m (set_mesh m T' st) index
  | None => None
  end.

(* ===================================================================== *)
(** * class ImageRenderer *)
(* ===================================================================== *)

(** [this.info] *)
Record ImageInfo : Type := mkImageInfo { width : Q; height : Q; aspect : Q }.

(** The two properties of a canvas element that [render] uses. *)
Record Canvas : Type := mkCanvas { canvas_width : Q; canvas_height : Q }.

(** An [ImageRenderer]: its canvas and its [info], which is missing
    ([None]) until the image has loaded. *)
Record ImageRenderer : Type := mkImageRenderer {
  canvas : Canvas;
  info : option ImageInfo
}.

(** [ctx.drawImage(this.image, padW, padH, imgW, imgH)] *)
Inductive ImageOp : Type :=
| DrawImage (padW padH imgW imgH : Q).

(** The first loader and the second. *)
Inductive LoaderId : Type := Loader1 | Loader2.

(** [_maxSize] *)
Definition maxSize : Q := 500.

(** The page: the state, and the two loaders [_loader1] and [_loader2]. *)
Record Page : Type := mkPage {
  page_state : State;
  loader1 : ImageRenderer;
  loader2 : ImageRenderer
}.

Definition loader (which : LoaderId) (page : Page) : ImageRenderer :=
  match which with Loader1 => loader1 page | Loader2 => loader2 page end.

Definition set_loader (which : LoaderId) (r : ImageRenderer) (page : Page) : Page :=
  match which with
  | Loader1 => {| page_state := page_state page; loader1 := r; loader2 := loader2 page |}
  | Loader2 => {| page_state := page_state page; loader1 := loader1 page; loader2 := r |}
  end.

(** [_size.w = size[0]; _size.h = size[1];] where [_size] is the one object
    that both Triangulators hold as their [size]. *)
Definition set_size (sz : Q * Q) (st : State) : State :=
  {| tri1 := {| size := {| size_w := fst sz; size_h := snd sz |};
                points := points (tri1 st) |};
     tri2 := {| size := {| size_w := fst sz; size_h := snd sz |};
                points := points (tri2 st) |};
     selectedIndex := selectedIndex st |}.

Section Rendering.

(** The quotient, the product and the difference of two numbers as the
    engine computes them, each the exact result rounded to a binary64
    number.  The rounding is not modelled: the three operations are
    parameters, and what is proved below holds whatever they are. *)
Variable fdiv : Q -> Q -> Q.
Variable fmul : Q -> Q -> Q.
Variable fsub : Q -> Q -> Q.

(** What [canvas.width] and [canvas.height] read after a number has been
    assigned to them: the conversion is the browser's. *)
Variable set_width : Q -> Q.
Variable set_height : Q -> Q.

(** The first half of the [load] listener of the constructor:
    [this.info = { width: w, height: h, aspect }].  The natural width and
    height of a loaded bitmap are positive whole numbers, which is what
    the model takes. *)
Definition image_load (r : ImageRenderer) (naturalWidth naturalHeight : positive)
  : ImageRenderer :=
  let w := inject_Z (Zpos naturalWidth) in
  let h := inject_Z (Zpos naturalHeight) in
  {| canvas := canvas r;
     info := Some {| width := w; height := h; aspect := fdiv w h |} |}.

(** [clampSize(maxW, maxH)]; [None] is the [Error] thrown when there is no
    size information yet. *)
Definition clampSize (r : ImageRenderer) (maxW maxH : Q) : option (Q * Q) :=
  match info r with
  | None => None
  | Some info =>
      let w := width info in
      let h := height info in
      let shrinkageW := fdiv maxW w in
      let shrinkageH := fdiv maxH h in
      let shrinkage := Qmin shrinkageW shrinkageH in
      Some (if Qltb shrinkage 1
            then (fmul w shrinkage, fmul h shrinkage)
            else (w, h))
  end.

(** [render(canvSize)]: the renderer with its canvas resized, and the
    drawing, or [None] for the [Error] of [clampSize], which is thrown
    after the canvas has been resized. *)
Definition render (r : ImageRenderer) (canvSize : option (Q * Q))
  : ImageRenderer * option ImageOp :=
  let canvas :=
    match canvSize with
    | Some sz => {| canvas_width := set_width (fst sz);
                    canvas_height := set_height (snd sz) |}
    | None => canvas r
    end in
  let r' := {| canvas := canvas; info := info r |} in
  let w := canvas_width canvas in
  let h := canvas_height canvas in
  match clampSize r' w h with
  | Some (imgW, imgH) =>
      let padW := fdiv (fsub w imgW) 2 in
      let padH := fdiv (fsub h imgH) 2 in
      (r', Some (DrawImage padW padH imgW imgH))
  | None => (r', None)
  end.

(** [onLoad(loader)] in [mounted()] of the main instance: the page
    afterwards and the drawings made, or [None] when an [Error] of
    [clampSize] ends it. *)
Definition onLoad (which : LoaderId) (page : Page)
  : option (Page * list (LoaderId * ImageOp)) :=
  match info (loader1 page), info (loader2 page) with
  | Some _, Some _ =>
      match clampSize (loader1 page) maxSize maxSize with
      | Some size =>
          match render (loader1 page) (Some size), render (loader2 page) (Some size) with
          | (r1, Some op1), (r2, Some op2) =>
              Some ({| page_state := set_size size (page_state page);
                       loader1 := r1; loader2 := r2 |},
                    [(Loader1, op1); (Loader2, op2)])
          | _, _ => None
          end
      | None => None
      end
  | _, _ =>
      match clampSize (loader which page) maxSize maxSize with
      | Some size =>
          match render (loader which page) (Some size) with
          | (r, Some op) =>
              Some (set_loader which r
                      {| page_state := set_size size (page_state page);
                         loader1 := loader1 page; loader2 := loader2 page |},
                    [(which, op)])
          | (_, None) => None
          end
      | None => None
      end
  end.

(** The [load] listener of loader [which]: the size information is
    stored, then [onImgLoad(this)], which is [onLoad]. *)
Definition image_loaded (which : LoaderId) (naturalWidth naturalHeight : positive)
    (page : Page) : option (Page * list (LoaderId * ImageOp)) :=
  onLoad which
    (set_loader which (image_load (loader which page) naturalWidth naturalHeight) page).

End Rendering.

(** The calls of [frame] that one animation makes, in order, starting from
    the value [skip] of its variable: what each call writes. *)
Fixpoint run_frames (triangulate : list Coord -> list nat) (skip : bool) (st : State)
    (ts : list Q) : list (list Output) :=
  match ts with
  | [] => []
  | t :: rest =>
      let '(skip', out) := frame triangulate skip st t in
      out :: run_frames triangulate skip' st rest
  end.

(* ===================================================================== *)
(** * Concrete data used by the examples *)
(* ===================================================================== *)

(** The string of a whole number, as the engine prints it. *)
Definition int_to_string (q : Q) : string := NilZero.string_of_int (Z.to_int (Qfloor q)).

(** A Delaunay triangulation of the meshes the examples use: the four
    corners alone, and the four corners with one point inside. *)
Definition delaunay_demo (coords : list Coord) : list nat :=
  match length coords with
  | 4 => [0; 1; 2; 1; 3; 2]
  | 5 => [0; 1; 4; 1; 3; 4; 3; 2; 4; 2; 0; 4]
  | _ => []
  end%nat.

(** The default domain. *)
Definition size400 : Size := {| size_w := 400; size_h := 400 |}.

Definition empty_mesh : Triangulator := {| size := size400; points := [] |}.

Definition one_point_mesh : Triangulator :=
  {| size := size400; points := [ createPoint (100, 150) ] |}.

(** The same triangulation as [delaunay_demo] for the corners alone, and
    two triangles only for five points. *)
Definition delaunay_other (coords : list Coord) : list nat :=
  match length coords with
  | 4 => [0; 1; 2; 1; 3; 2]
  | 5 => [0; 1; 4; 1; 3; 4]
  | _ => []
  end%nat.

(** A domain whose width is not a whole number: [clampSize(500, 500)]
    shrinks an image of 333 by 1000 by one half, to 166.5 by 500. *)
Definition half_size_mesh : Triangulator :=
  {| size := {| size_w := 333 # 2; size_h := 500 |}; points := [] |}.

Definition demo_state : State :=
  {| tri1 := one_point_mesh;
     tri2 := {| size := size400; points := [ createPoint (120, 90) ] |};
     selectedIndex := (-1)%Z |}.

(** A pair whose domain is 166.5 by 500. *)
Definition half_size_state : State :=
  {| tri1 := {| size := size half_size_mesh; points := [ createPoint (10, 20) ] |};
     tri2 := {| size := size half_size_mesh; points := [ createPoint (30, 40) ] |};
     selectedIndex := 0%Z |}.


(** A canvas dimension as a whole number. *)
Definition floor_dim (x : Q) : Q := inject_Z (Qfloor x).

(** The size information of an image of 333 by 1000. *)
Definition demo_info : ImageInfo :=
  {| width := 333; height := 1000; aspect := 333 / 1000 |}.

(** A renderer with a canvas of 300 by 150, before and after its image of
    333 by 1000 has loaded; the quotient is the exact one here. *)
Definition blank_renderer : ImageRenderer :=
  {| canvas := {| canvas_width := 300; canvas_height := 150 |}; info := None |}.

Definition demo_renderer : ImageRenderer := image_load Qdiv blank_renderer 333 1000.

(** The page before any image has loaded. *)
Definition demo_page : Page :=
  {| page_state := demo_state; loader1 := blank_renderer; loader2 := blank_renderer |}.

(* ===================================================================== *)
(** * Predicates of the statements *)
(* ===================================================================== *)

(** The correspondence length invariant, [len(A.points) == len(B.points)]. *)
Definition balanced (st : State) : Prop :=
  length (points (tri1 st)) = length (points (tri2 st)).

(** The coordinate list of a mesh, [getEffectivePoints().map(p => p.coord)]. *)
Definition effectiveCoords (T : Triangulator) : list Coord :=
  map coord (getEffectivePoints T).

(** The four corners of the domain as they are: [(0,0)], [(w,0)], [(0,h)],
    [(w,h)]. *)
Definition domain_corners (sz : Size) : list Coord :=
  [ (0, 0); (size_w sz, 0); (0, size_h sz); (size_w sz, size_h sz) ].

(** The corners with [w] and [h] rounded. *)
Definition rounded_corners (sz : Size) : list Coord :=
  [ (0, 0); (Math_round (size_w sz), 0); (0, Math_round (size_h sz));
    (Math_round (size_w sz), Math_round (size_h sz)) ].

(** The points that are not marked for deletion, in the order of the list. *)
Definition kept (pts : list Point) : list Point :=
  filter (fun p => negb (toDelete p)) pts.

(** [T'] is [T] with the point at [index] replaced by [new]. *)
Definition stores (T T' : Triangulator) (index : Z) (new : Point) : Prop :=
  size T' = size T
  /\ js_index (points T') index = Some new
  /\ forall j : Z, j <> index -> js_index (points T') j = js_index (points T) j.

(** At most one animation is scheduled, and it is the one [morphAnim]
    holds. *)
Definition single_animation (app : App) : Prop :=
  running app = []
  \/ exists (id : nat) (skip : bool),
       morphAnim app = Some id
       /\ running app = [ {| anim_id := id; anim_skip := skip |} ].

(** The source triangle of a draw. *)
Definition source_triangle (op : CanvasOp) : list Triangle :=
  match op with
  | ClearRect _ _ _ _ => []
  | DrawImageTriangle s1 s2 s3 _ _ _ => [(s1, s2, s3)]
  end.

(** An edge between the coordinates of two effective points of [T]. *)
Definition joins_effective_points (T : Triangulator) (e : Edge) : Prop :=
  exists a b : Coord,
    e = (VCoord a, VCoord b)
    /\ In a (effectiveCoords T) /\ In b (effectiveCoords T).

(** No point of the mesh is marked for deletion. *)
Definition no_marks (T : Triangulator) : Prop :=
  Forall (fun p => toDelete p = false) (points T).

(** A drag position above the deletion threshold. *)
Definition above_threshold (pos : Coord) : bool := Qltb (snd pos) (- deleteThreshold).

(** The three sides of a triangle, in the order [getEdges] visits them. *)
Definition triangle_sides (t : Triangle) : list Edge :=
  let '(t0, t1, t2) := t in [(t0, t1); (t1, t2); (t2, t0)].

(** The sides of all triangles, in the order [getEdges] visits them. *)
Definition all_sides (tris : list Triangle) : list Edge :=
  flat_map triangle_sides tris.



(** The element of a coordinate list at an index, as a corner of a
    triangle: [undefined] when the list has no such element. *)
Definition corner_at (co : list Coord) (i : nat) : Vertex :=
  match nth_error co i with
  | Some c => VCoord c
  | None => VUndefined
  end.

(** The draw [warpImage] makes for one index triple. *)
Definition draw_of (co1 co2 : list Coord) (t1 : Triangle) : CanvasOp :=
  let '(i0, i1, i2) := t1 in
  DrawImageTriangle (resolve co1 i0) (resolve co1 i1) (resolve co1 i2)
                    (resolve co2 i0) (resolve co2 i1) (resolve co2 i2).

(** The twin [onAdded] makes of a point. *)
Definition twin (p : Point) : Point := createPoint (coord p).

(* ===================================================================== *)
(** * Correspondence Synchronizer: [onAdded] and [onDeleted] *)
(* ===================================================================== *)

Section Synchronizer.

Lemma skipn_nth_cons {A : Type} (d : A) (l : list A) (n : nat) :
  (n < length l)%nat -> skipn n l = nth n l d :: skipn (S n) l.
Proof.
  revert n. induction l as [|x l IH]; intros n Hn; simpl in Hn.
  - lia.
  - destruct n as [|n]; [reflexivity|].
    simpl. apply IH. lia.
Qed.

(** The loop leaves the size alone. *)
Lemma onAdded_loop_size (sp : list Point) (T : Triangulator) :
  size (onAdded_loop sp T) = size T.
Proof.
  funelim (onAdded_loop sp T).
  - match goal with IH : size (onAdded_loop _ _) = _ |- _ => rewrite IH end.
    reflexivity.
  - reflexivity.
Qed.

(** What the loop appends: the twins of the points the target lacks. *)
Lemma onAdded_loop_points (sp : list Point) (T : Triangulator) :
  points (onAdded_loop sp T)
  = points T ++ map twin (skipn (length (points T)) sp).
Proof.
  funelim (onAdded_loop sp T).
  - match goal with IH : points (onAdded_loop _ _) = _ |- _ => rewrite IH end.
    simpl. rewrite length_app. simpl.
    rewrite (skipn_nth_cons undefined_point sourcePoints (length (points target))) by assumption.
    rewrite <- app_assoc. simpl.
    replace (length (points target) + 1)%nat with (S (length (points target))) by lia.
    reflexivity.
  - rewrite skipn_all2 by lia. simpl. rewrite app_nil_r. reflexivity.
Qed.

Lemma onAdded_loop_length (sp : list Point) (T : Triangulator) :
  length (points (onAdded_loop sp T)) = Nat.max (length sp) (length (points T)).
Proof.
  rewrite onAdded_loop_points, length_app, length_map, length_skipn. lia.
Qed.

(** [onAdded] balances any pair. *)
Lemma onAdded_balanced (st : State) : balanced (onAdded st).
Proof.
  unfold balanced, onAdded.
  destruct (Nat.ltb_spec (length (points (tri2 st))) (length (points (tri1 st))));
    simpl; rewrite onAdded_loop_length; lia.
Qed.

(** Nothing is appended to a list that is not the shorter one. *)
Lemma onAdded_loop_noop (sp : list Point) (T : Triangulator) :
  (length sp <= length (points T))%nat -> points (onAdded_loop sp T) = points T.
Proof.
  intros H. rewrite onAdded_loop_points, skipn_all2 by assumption.
  apply app_nil_r.
Qed.

Lemma splice1_past_end {A : Type} (n : nat) (l : list A) :
  nth_error l n = None -> splice1 n l = l.
Proof.
  revert n. induction l as [|x l IH]; intros [|n] H; simpl in *;
    try reflexivity; try discriminate.
  rewrite IH by assumption. reflexivity.
Qed.

Lemma splice1_in_range {A : Type} (n : nat) (l : list A) :
  splice1 n l = firstn n l ++ skipn (S n) l.
Proof.
  revert n. induction l as [|x l IH]; intros [|n]; simpl; try reflexivity.
  rewrite IH. reflexivity.
Qed.



(** [$delete] at an index that is not negative: the elements before it
    and the elements after it remain. *)
Lemma vue_delete_at {A : Type} (l : list A) (n : nat) :
  vue_delete l (Z.of_nat n) = firstn n l ++ skipn (S n) l.
Proof.
  unfold vue_delete. destruct (Z.ltb_spec (Z.of_nat n) 0); [lia|].
  rewrite Nat2Z.id. apply splice1_in_range.
Qed.



(** Rounding a rounded number changes nothing. *)
Lemma Math_round_idem (x : Q) : Math_round (Math_round x) = Math_round x.
Proof.
  unfold Math_round. f_equal.
  generalize (Qfloor (x + (1 # 2))). intros z.
  unfold Qfloor, Qplus, inject_Z. simpl.
  replace (z * 2 + 1)%Z with (1 + z * 2)%Z by lia.
  rewrite Z.div_add by lia. reflexivity.
Qed.

Lemma twin_createPoint (c : Coord) : twin (createPoint c) = createPoint c.
Proof.
  unfold twin, createPoint, round_coord. simpl.
  rewrite !Math_round_idem. reflexivity.
Qed.

(** A click on one mesh of a balanced pair: the same new point ends both
    lists. *)
Lemma add_to_balanced (st : State) (m : MeshId) (c : Coord) :
  balanced st ->
  points (tri1 (apply_op st (OpAdd m c))) = points (tri1 st) ++ [createPoint c] /\
  points (tri2 (apply_op st (OpAdd m c))) = points (tri2 st) ++ [createPoint c].
Proof.
  unfold balanced. intros H. destruct m; simpl; unfold onAdded; simpl.
  - rewrite length_app. simpl.
    destruct (Nat.ltb_spec (length (points (tri2 st)))
                           (length (points (tri1 st)) + 1)); [|lia].
    simpl. split; [reflexivity|].
    rewrite onAdded_loop_points, <- H, skipn_app, skipn_all, Nat.sub_diag.
    simpl. rewrite twin_createPoint. reflexivity.
  - rewrite length_app. simpl.
    destruct (Nat.ltb_spec (length (points (tri2 st)) + 1)
                           (length (points (tri1 st)))); [lia|].
    simpl. split; [|reflexivity].
    rewrite onAdded_loop_points, H, skipn_app, skipn_all, Nat.sub_diag.
    simpl. rewrite twin_createPoint. reflexivity.
Qed.

End Synchronizer.

(** The two lists after [onAdded], for any pair: each list is followed by
    the twins of the points that only the other list has (none, for the
    list that is not the shorter one). *)
Lemma onAdded_points (s : State) :
  points (tri1 (onAdded s))
  = points (tri1 s) ++ map twin (skipn (length (points (tri1 s))) (points (tri2 s))) /\
  points (tri2 (onAdded s))
  = points (tri2 s) ++ map twin (skipn (length (points (tri2 s))) (points (tri1 s))).
Proof.
  unfold onAdded.
  destruct (Nat.ltb_spec (length (points (tri2 s))) (length (points (tri1 s))));
    simpl; split.
  - rewrite skipn_all2 by lia. simpl. rewrite app_nil_r. reflexivity.
  - apply onAdded_loop_points.
  - apply onAdded_loop_points.
  - rewrite skipn_all2 by lia. simpl. rewrite app_nil_r. reflexivity.
Qed.



(** Adding [(10,10)] to the first of two empty meshes puts [(10,10)] at
    index 0 of the second. *)
Example add_balancing_example :
  let st := apply_op {| tri1 := empty_mesh; tri2 := empty_mesh;
                        selectedIndex := (-1)%Z |} (OpAdd Tri1 (10, 10)) in
  length (points (tri1 st)) = 1%nat
  /\ length (points (tri2 st)) = 1%nat
  /\ map coord (points (tri2 st)) = [ (10, 10) ].
Proof. repeat split. Qed.

(** Deleting at index 1 in [[P0,P1,P2]] and [[Q0,Q1,Q2]] leaves [[P0,P2]]
    and [[Q0,Q2]]. *)
Example delete_balancing_example (P0 P1 P2 Q0 Q1 Q2 : Point) (sz : Size) :
  let st := onDeleted {| tri1 := {| size := sz; points := [P0; P1; P2] |};
                         tri2 := {| size := sz; points := [Q0; Q1; Q2] |};
                         selectedIndex := 1%Z |} 1 in
  points (tri1 st) = [P0; P2] /\ points (tri2 st) = [Q0; Q2].
Proof. split; reflexivity. Qed.

(* ===================================================================== *)
(** * The effective point list *)
(* ===================================================================== *)

Section EffectivePoints.

Lemma Math_round_whole (x : Q) (z : Z) : x == inject_Z z -> Math_round x = inject_Z z.
Proof.
  intros H. unfold Math_round. f_equal.
  assert (Hx : x + (1 # 2) == inject_Z z + (1 # 2)) by (rewrite H; reflexivity).
  rewrite Hx. unfold Qfloor, Qplus, inject_Z. simpl.
  replace (z * 2 + 1)%Z with (1 + z * 2)%Z by lia.
  rewrite Z.div_add by lia. reflexivity.
Qed.

Lemma getEffectivePoints_unfold (T : Triangulator) :
  getEffectivePoints T
  = map (fun c => {| coord := c; toDelete := false |}) (rounded_corners (size T))
    ++ kept (points T).
Proof. reflexivity. Qed.

(** C6, as the code has it.  For any point list, marked points included,
    the effective point list is the four corners with [w] and [h] rounded
    to the nearest integer, [(0,0)], [(round w,0)], [(0,round h)],
    [(round w,round h)], none of them marked, followed by the points not
    marked for deletion in the order of the list.  When [w] and [h] are
    whole numbers these corners are [(0,0)], [(w,0)], [(0,h)], [(w,h)]. *)
Theorem effective_points_corners_then_kept (T : Triangulator) :
  getEffectivePoints T
  = map (fun c => {| coord := c; toDelete := false |}) (rounded_corners (size T))
    ++ kept (points T)
  /\ (forall zw zh : Z,
        size_w (size T) == inject_Z zw ->
        size_h (size T) == inject_Z zh ->
        Forall2 coord_eq (map coord (firstn 4 (getEffectivePoints T)))
                (domain_corners (size T))).
Proof.
  split; [apply getEffectivePoints_unfold|].
  intros zw zh Hw Hh. simpl. unfold round_coord. simpl.
  rewrite (Math_round_whole _ _ Hw), (Math_round_whole _ _ Hh).
  repeat constructor; simpl; try reflexivity; symmetry; assumption.
Qed.

Lemma effective_points_corners_then_kept_witness :
  size_w (size one_point_mesh) == inject_Z 400
  /\ size_h (size one_point_mesh) == inject_Z 400
  /\ Forall2 coord_eq (map coord (firstn 4 (getEffectivePoints one_point_mesh)))
             (domain_corners (size one_point_mesh)).
Proof.
  split; [reflexivity|]. split; [reflexivity|].
  apply (proj2 (effective_points_corners_then_kept one_point_mesh) 400%Z 400%Z);
    reflexivity.
Defined.

(** C6 as the claim has it fails for a width of 166.5: the second effective
    point is [(167, 0)], not [(166.5, 0)]. *)
Lemma corners_not_exact_for_fractional_size :
  map coord (firstn 4 (getEffectivePoints half_size_mesh))
  = [ (0, 0); (167, 0); (0, 500); (167, 500) ]
  /\ ~ Forall2 coord_eq (map coord (firstn 4 (getEffectivePoints half_size_mesh)))
                (domain_corners (size half_size_mesh)).
Proof.
  split; [reflexivity|].
  intros H. inversion H as [|a b la lb _ H2]; subst.
  inversion H2 as [|a' b' la' lb' Hab _]; subst.
  destruct Hab as [Hx _]. vm_compute in Hx. discriminate Hx.
Qed.

Lemma rounded_corners_whole (sz : Size) (zw zh : Z) :
  size_w sz == inject_Z zw -> size_h sz == inject_Z zh ->
  Forall2 coord_eq (rounded_corners sz) (domain_corners sz).
Proof.
  intros Hw Hh. unfold rounded_corners, domain_corners.
  rewrite (Math_round_whole _ _ Hw), (Math_round_whole _ _ Hh).
  repeat constructor; simpl; try reflexivity; symmetry; assumption.
Qed.

(** C10, as the code has it.  [clear] empties both point lists at once:
    both have length 0 and the pair is balanced.  The effective point list
    of each mesh is then exactly four unmarked points, the corners of its
    domain with [w] and [h] rounded to the nearest integer, [(0,0)],
    [(round w,0)], [(0,round h)], [(round w,round h)]; these are the four
    domain corners when [w] and [h] are whole numbers. *)
Theorem clear_empties_both_meshes (st : State) :
  points (tri1 (clear st)) = []
  /\ points (tri2 (clear st)) = []
  /\ length (points (tri1 (clear st))) = 0%nat
  /\ length (points (tri2 (clear st))) = 0%nat
  /\ balanced (clear st)
  /\ getEffectivePoints (tri1 (clear st))
     = map (fun c => {| coord := c; toDelete := false |})
           (rounded_corners (size (tri1 st)))
  /\ getEffectivePoints (tri2 (clear st))
     = map (fun c => {| coord := c; toDelete := false |})
           (rounded_corners (size (tri2 st)))
  /\ size (tri1 (clear st)) = size (tri1 st)
  /\ size (tri2 (clear st)) = size (tri2 st)
  /\ (forall zw zh : Z,
        size_w (size (tri1 st)) == inject_Z zw ->
        size_h (size (tri1 st)) == inject_Z zh ->
        Forall2 coord_eq (map coord (getEffectivePoints (tri1 (clear st))))
                (domain_corners (size (tri1 st))))
  /\ (forall zw zh : Z,
        size_w (size (tri2 st)) == inject_Z zw ->
        size_h (size (tri2 st)) == inject_Z zh ->
        Forall2 coord_eq (map coord (getEffectivePoints (tri2 (clear st))))
                (domain_corners (size (tri2 st)))).
Proof.
  repeat split.
  - intros zw zh Hw Hh. apply (rounded_corners_whole _ zw zh Hw Hh).
  - intros zw zh Hw Hh. apply (rounded_corners_whole _ zw zh Hw Hh).
Qed.

Lemma clear_empties_both_meshes_witness :
  size_w (size (tri1 demo_state)) == inject_Z 400
  /\ size_h (size (tri1 demo_state)) == inject_Z 400
  /\ Forall2 coord_eq (map coord (getEffectivePoints (tri1 (clear demo_state))))
             (domain_corners (size (tri1 demo_state))).
Proof.
  split; [reflexivity|]. split; [reflexivity|].
  destruct (clear_empties_both_meshes demo_state)
    as (_ & _ & _ & _ & _ & _ & _ & _ & _ & H & _).
  apply (H 400%Z 400%Z); reflexivity.
Defined.

(** C10 as the claim has it fails in a domain of 166.5 by 500: after
    [clear] the effective points are [(0,0)], [(167,0)], [(0,500)],
    [(167,500)], and the second is not the domain corner [(166.5,0)]. *)
Lemma clear_corners_rounded_for_fractional_size :
  points (tri1 (clear half_size_state)) = []
  /\ map coord (getEffectivePoints (tri1 (clear half_size_state)))
     = [ (0, 0); (167, 0); (0, 500); (167, 500) ]
  /\ domain_corners (size (tri1 (clear half_size_state)))
     = [ (0, 0); (333 # 2, 0); (0, 500); (333 # 2, 500) ]
  /\ ~ Forall2 coord_eq
         (map coord (getEffectivePoints (tri1 (clear half_size_state))))
         (domain_corners (size (tri1 (clear half_size_state)))).
Proof.
  split; [reflexivity|]. split; [reflexivity|]. split; [reflexivity|].
  intros H. inversion H as [|a b la lb _ H2]; subst.
  inversion H2 as [|a' b' la' lb' Hab _]; subst.
  destruct Hab as [Hx _]. vm_compute in Hx. discriminate Hx.
Qed.

End EffectivePoints.

(* ===================================================================== *)
(** * Dragging a point *)
(* ===================================================================== *)

Section Dragging.

Lemma Qltb_lt (x y : Q) : Qltb x y = true <-> x < y.
Proof.
  unfold Qltb. rewrite negb_true_iff. split.
  - intros H. apply Qnot_le_lt. intros Hle.
    apply Qle_bool_iff in Hle. congruence.
  - intros H. destruct (Qle_bool y x) eqn:E; [|reflexivity].
    apply Qle_bool_iff in E. exfalso. exact (Qlt_not_le _ _ H E).
Qed.

Lemma Qltb_nlt (x y : Q) : Qltb x y = false <-> ~ x < y.
Proof.
  rewrite <- Qltb_lt. destruct (Qltb x y); split; congruence.
Qed.

Lemma clamp_in_range (x lo hi : Q) : lo <= hi -> lo <= clamp x lo hi <= hi.
Proof.
  intros H. unfold clamp. split.
  - apply Q.le_max_l.
  - apply Q.max_lub; [assumption | apply Q.le_min_r].
Qed.

Lemma clamp_inside (x lo hi : Q) : lo <= x <= hi -> clamp x lo hi == x.
Proof.
  intros [H1 H2]. unfold clamp.
  rewrite (Q.min_l x hi) by assumption.
  apply Q.max_r. assumption.
Qed.

Lemma update_at_same {A : Type} (f : A -> A) (l : list A) (n : nat) :
  nth_error (update_at n f l) n = option_map f (nth_error l n).
Proof.
  revert n. induction l as [|x l IH]; intros [|n]; simpl; auto.
Qed.

Lemma update_at_other {A : Type} (f : A -> A) (l : list A) (n m : nat) :
  n <> m -> nth_error (update_at n f l) m = nth_error l m.
Proof.
  revert n m. induction l as [|x l IH]; intros [|n] [|m] H; simpl; auto.
  contradiction.
Qed.

Lemma update_at_twice {A : Type} (f g : A -> A) (l : list A) (n : nat) :
  update_at n g (update_at n f l) = update_at n (fun x => g (f x)) l.
Proof.
  revert n. induction l as [|x l IH]; intros [|n]; simpl; auto.
  rewrite IH. reflexivity.
Qed.

Lemma js_update_twice {A : Type} (f g : A -> A) (l : list A) (index : Z) :
  js_update (js_update l index f) index g = js_update l index (fun x => g (f x)).
Proof.
  unfold js_update. destruct (index <? 0)%Z; [reflexivity|].
  apply update_at_twice.
Qed.

Lemma stores_js_update (T : Triangulator) (index : Z) (f : Point -> Point) (p : Point) :
  js_index (points T) index = Some p ->
  stores T {| size := size T; points := js_update (points T) index f |} index (f p).
Proof.
  unfold stores, js_index, js_update. simpl. intros Hp.
  destruct (Z.ltb_spec index 0) as [Hneg|Hpos]; [discriminate|].
  split; [reflexivity|]. split.
  - rewrite update_at_same, Hp. reflexivity.
  - intros j Hj. destruct (Z.ltb_spec j 0); [reflexivity|].
    apply update_at_other. lia.
Qed.

(** Above the threshold: the point is marked and the raw position stored. *)
Lemma dragMove_above (T : Triangulator) (index : Z) (pos : Coord) (p : Point) :
  js_index (points T) index = Some p ->
  snd pos < - deleteThreshold ->
  exists T', dragMove T index pos = Some T'
             /\ stores T T' index {| coord := pos; toDelete := true |}.
Proof.
  intros Hp Hy. apply Qltb_lt in Hy.
  unfold dragMove, dragCallback. rewrite Hy, Hp.
  eexists. split; [reflexivity|].
  unfold onDragging. simpl. rewrite js_update_twice.
  exact (stores_js_update T index
           (fun _ => {| coord := pos; toDelete := true |}) p Hp).
Qed.

(** Otherwise: the clamped position is stored and the mark left as it was. *)
Lemma dragMove_inside (T : Triangulator) (index : Z) (pos : Coord) (p : Point) :
  js_index (points T) index = Some p ->
  ~ snd pos < - deleteThreshold ->
  exists T', dragMove T index pos = Some T'
             /\ stores T T' index
                  {| coord := (clamp (fst pos) 0 (size_w (size T)),
                               clamp (snd pos) 0 (size_h (size T)));
                     toDelete := toDelete p |}.
Proof.
  intros Hp Hy. apply Qltb_nlt in Hy.
  unfold dragMove, dragCallback. rewrite Hy.
  eexists. split; [reflexivity|].
  unfold onDragging.
  exact (stores_js_update T index
           (fun q => {| coord := (clamp (fst pos) 0 (size_w (size T)),
                                  clamp (snd pos) 0 (size_h (size T)));
                        toDelete := toDelete q |}) p Hp).
Qed.

End Dragging.

(** C4. Moving a point that exists: when the vertical coordinate is below
    minus the deletion threshold (more than 20 above the top edge) the
    point is marked for deletion and its coordinate is the position as it
    is, not clamped; otherwise the stored coordinate is the position
    clamped to [[0,w]] and [[0,h]], which lies in the domain, and the mark
    is left as it was.  In a domain of 400 by 400, [(450,-10)] stores
    [(400,0)] without marking; [y = -19] and [y = -20] clamp to 0, and
    [y = -21] marks for deletion. *)
Theorem drag_clamps_or_marks (T : Triangulator) (index : Z) (pos : Coord) (p : Point) :
  js_index (points T) index = Some p ->
  (snd pos < - deleteThreshold ->
     exists T', dragMove T index pos = Some T'
                /\ stores T T' index {| coord := pos; toDelete := true |})
  /\ (~ snd pos < - deleteThreshold ->
        exists T', dragMove T index pos = Some T'
                   /\ stores T T' index
                        {| coord := (clamp (fst pos) 0 (size_w (size T)),
                                     clamp (snd pos) 0 (size_h (size T)));
                           toDelete := toDelete p |})
  /\ (0 <= size_w (size T) ->
        0 <= clamp (fst pos) 0 (size_w (size T)) <= size_w (size T))
  /\ (0 <= size_h (size T) ->
        0 <= clamp (snd pos) 0 (size_h (size T)) <= size_h (size T))
  /\ (size T = size400 ->
        (exists T', dragMove T index (450, -10) = Some T'
                    /\ stores T T' index {| coord := (400, 0); toDelete := toDelete p |})
        /\ (forall x : Q,
              exists T', dragMove T index (x, -19) = Some T'
                         /\ stores T T' index
                              {| coord := (clamp x 0 400, 0); toDelete := toDelete p |})
        /\ (forall x : Q,
              exists T', dragMove T index (x, -20) = Some T'
                         /\ stores T T' index
                              {| coord := (clamp x 0 400, 0); toDelete := toDelete p |})
        /\ (forall x : Q,
              exists T', dragMove T index (x, -21) = Some T'
                         /\ stores T T' index {| coord := (x, -21); toDelete := true |})).
Proof.
  intros Hp. split; [|split; [|split; [|split]]].
  - apply (dragMove_above T index pos p Hp).
  - apply (dragMove_inside T index pos p Hp).
  - apply clamp_in_range.
  - apply clamp_in_range.
  - intros Hsize.
    assert (Hin : forall x y : Q, ~ y < - deleteThreshold ->
              exists T', dragMove T index (x, y) = Some T'
                         /\ stores T T' index
                              {| coord := (clamp x 0 400, clamp y 0 400);
                                 toDelete := toDelete p |}).
    { intros x y Hy.
      destruct (dragMove_inside T index (x, y) p Hp Hy) as [T' [H1 H2]].
      exists T'. split; [exact H1|]. rewrite Hsize in H2. exact H2. }
    split; [|split; [|split]].
    + apply (Hin 450 (-10)). unfold Qlt. simpl. lia.
    + intros x. apply (Hin x (-19)). unfold Qlt. simpl. lia.
    + intros x. apply (Hin x (-20)). unfold Qlt. simpl. lia.
    + intros x. apply (dragMove_above T index (x, -21) p Hp).
      unfold Qlt. simpl. lia.
Qed.

Lemma drag_clamps_or_marks_witness :
  js_index (points one_point_mesh) 0 = Some (createPoint (100, 150))
  /\ ~ snd (450, -10) < - deleteThreshold
  /\ exists T', dragMove one_point_mesh 0 (450, -10) = Some T'
                /\ stores one_point_mesh T' 0
                     {| coord := (400, 0); toDelete := false |}.
Proof.
  split; [reflexivity|]. split.
  - unfold Qlt. simpl. lia.
  - apply (drag_clamps_or_marks one_point_mesh 0 (450, -10) (createPoint (100, 150))
             eq_refl).
    reflexivity.
Defined.

(* ===================================================================== *)
(** * [warpImage] *)
(* ===================================================================== *)

Section Warp.

Variable D : list Coord -> list nat.

Lemma warpImage_unfold (A B : Triangulator) (lerpT : option Q) :
  warpImage D A B lerpT
  = ClearRect 0 0 (size_w (size B)) (size_h (size B))
    :: map (draw_of (effectiveCoords A) (destCoords A B lerpT)) (getTriangles D true A).
Proof. reflexivity. Qed.

Lemma getTriangles_indexes (A : Triangulator) :
  getTriangles D true A
  = map (fun '(a, b, c) => (index_entry a, index_entry b, index_entry c))
        (triplets (D (effectiveCoords A))).
Proof. reflexivity. Qed.

(** A number that is given always takes the interpolation branch. *)
Lemma destCoords_supplied (A B : Triangulator) (t : Q) :
  destCoords A B (Some t) = lerp (effectiveCoords A) (effectiveCoords B) t.
Proof.
  unfold destCoords, truthy. destruct (Qeq_bool t 0); reflexivity.
Qed.

Lemma lerp_length (co1 co2 : list Coord) (t : Q) :
  length co1 = length co2 -> length (lerp co1 co2 t) = length co1.
Proof.
  revert co2. induction co1 as [|a co1 IH]; intros [|b co2] H; simpl in *;
    try discriminate; [reflexivity|].
  f_equal. apply IH. congruence.
Qed.

Lemma lerp_nth (co1 co2 : list Coord) (t : Q) (i : nat) (a b : Coord) :
  nth_error co1 i = Some a -> nth_error co2 i = Some b ->
  nth_error (lerp co1 co2 t) i = Some (lerp_coord a b t).
Proof.
  revert co2 i. induction co1 as [|a' co1 IH]; intros [|b' co2] [|i] Ha Hb;
    simpl in *; try discriminate.
  - congruence.
  - apply IH; assumption.
Qed.

Lemma lerp_at_zero (co1 co2 : list Coord) (t : Q) :
  t == 0 -> length co1 = length co2 -> Forall2 coord_eq (lerp co1 co2 t) co1.
Proof.
  intros Ht. revert co2. induction co1 as [|a co1 IH]; intros [|b co2] H;
    simpl in *; try discriminate; constructor.
  - unfold coord_eq, lerp_coord, lerp_num. simpl. rewrite Ht. split; ring.
  - apply IH. congruence.
Qed.

Lemma lerp_at_one (co1 co2 : list Coord) (t : Q) :
  t == 1 -> length co1 = length co2 -> Forall2 coord_eq (lerp co1 co2 t) co2.
Proof.
  intros Ht. revert co2. induction co1 as [|a co1 IH]; intros [|b co2] H;
    simpl in *; try discriminate; constructor.
  - unfold coord_eq, lerp_coord, lerp_num. simpl. rewrite Ht. split; ring.
  - apply IH. congruence.
Qed.

(** C5. With an interpolation parameter [t] and two meshes with as many
    effective points, the coordinates [warpImage] draws to are, position
    by position, [co1 + t*(co2 - co1)]; at [t = 0] they are the source
    mesh's effective coordinates and at [t = 1] the target mesh's, number
    for number; without a parameter they are the target's. *)
Theorem warp_destination_is_interpolation (A B : Triangulator) (t : Q) :
  length (effectiveCoords A) = length (effectiveCoords B) ->
  warpImage D A B (Some t)
  = ClearRect 0 0 (size_w (size B)) (size_h (size B))
    :: map (draw_of (effectiveCoords A) (destCoords A B (Some t)))
           (getTriangles D true A)
  /\ destCoords A B (Some t) = lerp (effectiveCoords A) (effectiveCoords B) t
  /\ length (destCoords A B (Some t)) = length (effectiveCoords A)
  /\ (forall (i : nat) (a b : Coord),
        nth_error (effectiveCoords A) i = Some a ->
        nth_error (effectiveCoords B) i = Some b ->
        nth_error (destCoords A B (Some t)) i
        = Some (fst a + t * (fst b - fst a), snd a + t * (snd b - snd a)))
  /\ Forall2 coord_eq (destCoords A B (Some 0)) (effectiveCoords A)
  /\ Forall2 coord_eq (destCoords A B (Some 1)) (effectiveCoords B)
  /\ destCoords A B None = effectiveCoords B.
Proof.
  intros Hlen.
  split; [apply warpImage_unfold|].
  rewrite !destCoords_supplied.
  split; [reflexivity|].
  split; [apply lerp_length, Hlen|].
  split; [intros i a b Ha Hb; apply (lerp_nth _ _ t i a b Ha Hb)|].
  split; [apply lerp_at_zero; [reflexivity | exact Hlen]|].
  split; [apply lerp_at_one; [reflexivity | exact Hlen]|].
  reflexivity.
Qed.

Lemma triplets_nth (l : list nat) (k a b c : nat) :
  nth_error l (3 * k) = Some a ->
  nth_error l (3 * k + 1) = Some b ->
  nth_error l (3 * k + 2) = Some c ->
  nth_error (triplets l) k = Some (Some a, Some b, Some c).
Proof.
  revert l. induction k as [|k IH]; intros l.
  - destruct l as [|x [|y [|z rest]]]; simpl; intros Ha Hb Hc; try discriminate.
    congruence.
  - replace (3 * S k)%nat with (S (S (S (3 * k)))) by lia.
    destruct l as [|x [|y [|z rest]]]; simpl; intros Ha Hb Hc; try discriminate.
    apply IH; assumption.
Qed.

Lemma triplets_length3 (n : nat) (l : list nat) :
  length l = (3 * n)%nat -> length (triplets l) = n.
Proof.
  revert l. induction n as [|n IH]; intros l Hl.
  - destruct l; [reflexivity | discriminate].
  - destruct l as [|x [|y [|z rest]]]; simpl in Hl; try lia.
    simpl. f_equal. apply IH. lia.
Qed.

(** The draw made for the triplet number [k] of the triangulation of the
    source mesh. *)
Lemma warpImage_nth_draw (A B : Triangulator) (lerpT : option Q) (k a b c : nat) :
  nth_error (D (effectiveCoords A)) (3 * k) = Some a ->
  nth_error (D (effectiveCoords A)) (3 * k + 1) = Some b ->
  nth_error (D (effectiveCoords A)) (3 * k + 2) = Some c ->
  nth_error (warpImage D A B lerpT) (S k)
  = Some (DrawImageTriangle
            (corner_at (effectiveCoords A) a) (corner_at (effectiveCoords A) b)
            (corner_at (effectiveCoords A) c)
            (corner_at (destCoords A B lerpT) a) (corner_at (destCoords A B lerpT) b)
            (corner_at (destCoords A B lerpT) c)).
Proof.
  intros Ha Hb Hc. rewrite warpImage_unfold, getTriangles_indexes.
  cbn [nth_error].
  rewrite (map_nth_error _ _ _
             (map_nth_error _ _ _ (triplets_nth _ k a b c Ha Hb Hc))).
  reflexivity.
Qed.

Lemma warpImage_length (A B : Triangulator) (lerpT : option Q) (n : nat) :
  length (D (effectiveCoords A)) = (3 * n)%nat ->
  length (warpImage D A B lerpT) = S n.
Proof.
  intros H. rewrite warpImage_unfold, getTriangles_indexes. cbn [length].
  rewrite !length_map, (triplets_length3 n _ H). reflexivity.
Qed.

(** C8. [warpImage] clears the canvas and then makes one draw for each
    triplet of indices of the source mesh's triangulation, in order: the
    draw for the triplet [(a, b, c)] takes the triangle whose corners are
    the source coordinates at [a], [b] and [c] to the triangle whose
    corners are the destination coordinates at the same [a], [b] and [c]
    (the target mesh's coordinates when no parameter is given), a corner
    being [undefined] where the list has no such index.  The triangulation
    function matters through its value on the source mesh's coordinates
    only: what it gives for the target mesh changes nothing. *)
Theorem warp_topology_from_source (D' : list Coord -> list nat)
    (A B : Triangulator) (lerpT : option Q) :
  D (effectiveCoords A) = D' (effectiveCoords A) ->
  warpImage D A B lerpT = warpImage D' A B lerpT
  /\ nth_error (warpImage D A B lerpT) 0
     = Some (ClearRect 0 0 (size_w (size B)) (size_h (size B)))
  /\ (forall k a b c : nat,
        nth_error (D (effectiveCoords A)) (3 * k) = Some a ->
        nth_error (D (effectiveCoords A)) (3 * k + 1) = Some b ->
        nth_error (D (effectiveCoords A)) (3 * k + 2) = Some c ->
        nth_error (warpImage D A B lerpT) (S k)
        = Some (DrawImageTriangle
                  (corner_at (effectiveCoords A) a) (corner_at (effectiveCoords A) b)
                  (corner_at (effectiveCoords A) c)
                  (corner_at (destCoords A B lerpT) a)
                  (corner_at (destCoords A B lerpT) b)
                  (corner_at (destCoords A B lerpT) c)))
  /\ (forall n : nat,
        length (D (effectiveCoords A)) = (3 * n)%nat ->
        length (warpImage D A B lerpT) = S n)
  /\ destCoords A B None = effectiveCoords B.
Proof.
  intros H. split; [|split; [|split; [|split]]].
  - unfold warpImage, getTriangles. fold (effectiveCoords A). rewrite H. reflexivity.
  - reflexivity.
  - apply warpImage_nth_draw.
  - apply warpImage_length.
  - reflexivity.
Qed.

End Warp.

Lemma warp_destination_is_interpolation_witness :
  length (effectiveCoords one_point_mesh)
  = length (effectiveCoords (tri2 demo_state))
  /\ Forall2 coord_eq
       (destCoords one_point_mesh (tri2 demo_state) (Some 1))
       (effectiveCoords (tri2 demo_state)).
Proof.
  split; [reflexivity|].
  apply (warp_destination_is_interpolation delaunay_demo one_point_mesh
           (tri2 demo_state) (1 # 3)).
  reflexivity.
Defined.

Lemma warp_topology_from_source_witness :
  delaunay_demo (effectiveCoords empty_mesh) = delaunay_other (effectiveCoords empty_mesh)
  /\ delaunay_demo (effectiveCoords one_point_mesh)
     <> delaunay_other (effectiveCoords one_point_mesh)
  /\ warpImage delaunay_demo empty_mesh one_point_mesh (Some (1 # 2))
     = warpImage delaunay_other empty_mesh one_point_mesh (Some (1 # 2)).
Proof.
  split; [reflexivity|]. split; [discriminate|].
  apply (proj1 (warp_topology_from_source delaunay_demo delaunay_other empty_mesh
                  one_point_mesh (Some (1 # 2)) eq_refl)).
Defined.

(* ===================================================================== *)
(** * The animation: [stopAnim], [warp] and the frames *)
(* ===================================================================== *)

Section Animation.

Variable D : list Coord -> list nat.

Lemma stopAnim_stops (app : App) :
  single_animation app -> running (stopAnim app) = [].
Proof.
  unfold stopAnim. intros [Hnil | (id & skip & Hm & Hr)].
  - destruct (morphAnim app); simpl; rewrite ?Hnil; reflexivity.
  - rewrite Hm. simpl. rewrite Hr. simpl. rewrite Nat.eqb_refl. reflexivity.
Qed.

Lemma stopAnim_keeps (app : App) :
  state (stopAnim app) = state app
  /\ morphAnim (stopAnim app) = morphAnim app
  /\ next_id (stopAnim app) = next_id app.
Proof.
  unfold stopAnim. destruct (morphAnim app) eqn:E; simpl; auto.
Qed.

Lemma warp_running (app : App) :
  single_animation app ->
  running (warp app) = [ {| anim_id := next_id app; anim_skip := false |} ]
  /\ morphAnim (warp app) = Some (next_id app).
Proof.
  intros H. unfold warp, animate. simpl.
  rewrite (stopAnim_stops app H).
  destruct (stopAnim_keeps app) as (_ & _ & Hn). rewrite Hn.
  split; reflexivity.
Qed.

Lemma tick_single (app : App) (id : nat) (t : Q) :
  single_animation app -> single_animation (fst (tick D app id t)).
Proof.
  intros H. unfold tick.
  destruct (find (fun a => Nat.eqb (anim_id a) id) (running app)) as [a|] eqn:Ef;
    [|exact H].
  destruct (frame D (anim_skip a) (state app) t) as [skip out]. simpl.
  destruct H as [Hnil | (id' & skip' & Hm & Hr)].
  - rewrite Hnil in Ef. discriminate.
  - rewrite Hr in Ef. simpl in Ef.
    destruct (Nat.eqb_spec id' id) as [->|]; [|discriminate].
    unfold single_animation. simpl. rewrite Hr. simpl. rewrite Nat.eqb_refl. simpl.
    destruct (Qle_bool 1 t); [left; reflexivity|].
    right. exists id, skip. split; [exact Hm | reflexivity].
Qed.

Lemma step_single (app : App) (ev : Event) :
  single_animation app -> single_animation (step D app ev).
Proof.
  intros H. destruct ev; simpl.
  - right. destruct (warp_running app H) as [Hr Hm].
    exists (next_id app), false. split; assumption.
  - left. apply stopAnim_stops, H.
  - left. unfold onSelected. simpl. apply stopAnim_stops, H.
  - left. unfold componentAddPoint, onSelected. simpl.
    apply stopAnim_stops. exact H.
  - exact H.
  - exact H.
  - apply tick_single, H.
Qed.

Lemma run_single (app : App) (evs : list Event) :
  single_animation app -> single_animation (run D app evs).
Proof.
  unfold run. revert app. induction evs as [|ev evs IH]; intros app H; simpl.
  - exact H.
  - apply IH, step_single, H.
Qed.

Lemma stopAnim_idle (app : App) : running app = [] -> stopAnim app = app.
Proof.
  intros H. unfold stopAnim, cancel. destruct app as [st m r n]. simpl in *.
  subst r. destruct m; reflexivity.
Qed.

Lemma filter_twice {A : Type} (f : A -> bool) (l : list A) :
  filter f (filter f l) = filter f l.
Proof.
  induction l as [|x l IH]; simpl; [reflexivity|].
  destruct (f x) eqn:E; simpl; rewrite ?E, IH; reflexivity.
Qed.

Lemma stopAnim_idempotent (app : App) : stopAnim (stopAnim app) = stopAnim app.
Proof.
  destruct app as [st [id|] r n]; unfold stopAnim, cancel; simpl.
  - rewrite filter_twice. reflexivity.
  - reflexivity.
Qed.

(** C9. In every state the application reaches from its start, whatever
    the events, at most one animation is scheduled.  [warp] there cancels
    the animation that runs, if any, before it starts its own, so that the
    new animation is the only one scheduled afterwards; [stopAnim] leaves
    none scheduled; when none is scheduled [stopAnim] changes nothing, and
    a second [stopAnim] changes nothing after a first. *)
Theorem one_animation_at_a_time (st : State) (evs : list Event) :
  let app := run D (initial_app st) evs in
  (length (running app) <= 1)%nat
  /\ running (stopAnim app) = []
  /\ running (warp app) = [ {| anim_id := next_id app; anim_skip := false |} ]
  /\ morphAnim (warp app) = Some (next_id app)
  /\ (running app = [] -> stopAnim app = app)
  /\ stopAnim (stopAnim app) = stopAnim app.
Proof.
  intros app.
  assert (H : single_animation app).
  { apply run_single. left. reflexivity. }
  split.
  { destruct H as [Hnil | (id & skip & _ & Hr)]; [rewrite Hnil | rewrite Hr];
      simpl; lia. }
  split; [apply stopAnim_stops, H|].
  split; [apply (proj1 (warp_running app H))|].
  split; [apply (proj2 (warp_running app H))|].
  split; [apply stopAnim_idle | apply stopAnim_idempotent].
Qed.



End Animation.

Lemma one_animation_at_a_time_witness :
  running (run delaunay_demo (initial_app demo_state)
             [EvWarp; EvTick 0 (1 # 2); EvWarp; EvTick 1 1]) = []
  /\ stopAnim (run delaunay_demo (initial_app demo_state)
                 [EvWarp; EvTick 0 (1 # 2); EvWarp; EvTick 1 1])
     = run delaunay_demo (initial_app demo_state)
         [EvWarp; EvTick 0 (1 # 2); EvWarp; EvTick 1 1].
Proof.
  split; [reflexivity|].
  destruct (one_animation_at_a_time delaunay_demo demo_state
              [EvWarp; EvTick 0 (1 # 2); EvWarp; EvTick 1 1])
    as (_ & _ & _ & _ & Hidle & _).
  apply Hidle. reflexivity.
Defined.



(* ===================================================================== *)
(** * [onDeleted] with an index outside the lists *)
(* ===================================================================== *)

Section IndexMisuse.

Lemma vue_delete_out_of_range {A : Type} (l : list A) (index : Z) :
  js_index l index = None -> vue_delete l index = l.
Proof.
  unfold js_index, vue_delete. destruct (index <? 0)%Z; [reflexivity|].
  apply splice1_past_end.
Qed.

(** C7, as the code has it.  A delete with an index outside both point
    lists raises nothing: [onDeleted] returns the state it was given, both
    meshes unchanged. *)
Theorem delete_out_of_range_changes_nothing (st : State) (index : Z) :
  js_index (points (tri1 st)) index = None ->
  js_index (points (tri2 st)) index = None ->
  onDeleted st index = st.
Proof.
  intros H1 H2. unfold onDeleted.
  rewrite (vue_delete_out_of_range _ _ H1), (vue_delete_out_of_range _ _ H2).
  destruct st as [[s1 p1] [s2 p2] sel]. reflexivity.
Qed.

Lemma delete_out_of_range_changes_nothing_witness :
  js_index (points (tri1 demo_state)) 1 = None
  /\ js_index (points (tri2 demo_state)) 1 = None
  /\ onDeleted demo_state 1 = demo_state.
Proof.
  split; [reflexivity|]. split; [reflexivity|].
  apply (delete_out_of_range_changes_nothing demo_state 1); reflexivity.
Defined.

(** C7 as the claim has it fails: deleting at index 7, or at index -1, in
    a pair of one point each gives back the same pair, and [onDeleted] has
    no other result that could report the index. *)
Lemma delete_bad_index_is_silent :
  js_index (points (tri1 demo_state)) 7 = None
  /\ js_index (points (tri2 demo_state)) 7 = None
  /\ onDeleted demo_state 7 = demo_state
  /\ onDeleted demo_state (-1) = demo_state.
Proof.
  repeat split.
Qed.

End IndexMisuse.

(* ===================================================================== *)
(** * [getEdges] *)
(* ===================================================================== *)

Section Edges.

Variable D : list Coord -> list nat.
Variable str : Q -> string.

(** The key [addIfNew] computes for an edge. *)
Let key (e : Edge) : string := edge_key str (fst e) (snd e).

(** [addIfNew] on a side given as a pair. *)
Let addSide (acc : EdgeAcc) (e : Edge) : EdgeAcc := addIfNew str acc (fst e) (snd e).

(** What [getEdges] keeps true of [drawn] and [edges]: the keys drawn are
    the keys of the edges pushed, and no key is there twice. *)
Let acc_ok (acc : EdgeAcc) : Prop :=
  drawn acc = rev (map key (edges acc)) /\ NoDup (drawn acc).

Lemma existsb_eqb_In (k : string) (l : list string) :
  existsb (String.eqb k) l = true <-> In k l.
Proof.
  rewrite existsb_exists. split.
  - intros (x & Hx & Heq). apply String.eqb_eq in Heq. subst. exact Hx.
  - intros H. exists k. split; [exact H | apply String.eqb_refl].
Qed.

Lemma addTriangle_as_sides (acc : EdgeAcc) (t : Triangle) :
  addTriangle str acc t = fold_left addSide (triangle_sides t) acc.
Proof. destruct t as [[t0 t1] t2]. reflexivity. Qed.

Lemma fold_addTriangle_as_sides (tris : list Triangle) (acc : EdgeAcc) :
  fold_left (addTriangle str) tris acc = fold_left addSide (all_sides tris) acc.
Proof.
  revert acc. induction tris as [|t tris IH]; intros acc; simpl; [reflexivity|].
  unfold all_sides in *. simpl. rewrite fold_left_app, IH, addTriangle_as_sides.
  reflexivity.
Qed.

Lemma addSide_ok (acc : EdgeAcc) (e : Edge) :
  acc_ok acc ->
  acc_ok (addSide acc e)
  /\ In (key e) (drawn (addSide acc e))
  /\ (forall k, In k (drawn acc) -> In k (drawn (addSide acc e)))
  /\ (forall e', In e' (edges (addSide acc e)) -> In e' (edges acc) \/ e' = e).
Proof.
  intros [Hd Hn]. unfold addSide, addIfNew. fold (key e).
  destruct (existsb (String.eqb (key e)) (drawn acc)) eqn:E.
  - apply existsb_eqb_In in E. repeat split; auto.
  - assert (Hnot : ~ In (key e) (drawn acc)).
    { intros Hin. apply existsb_eqb_In in Hin. congruence. }
    repeat split; simpl.
    + rewrite map_app, rev_app_distr, <- Hd. destruct e; reflexivity.
    + constructor; assumption.
    + left. reflexivity.
    + intros k Hk. right. exact Hk.
    + intros e' He'. apply in_app_or in He'. destruct He' as [H|[H|[]]].
      * left. exact H.
      * right. subst e'. destruct e; reflexivity.
Qed.

Lemma fold_addSide_ok (sides : list Edge) (acc : EdgeAcc) :
  acc_ok acc ->
  acc_ok (fold_left addSide sides acc)
  /\ (forall s, In s sides -> In (key s) (drawn (fold_left addSide sides acc)))
  /\ (forall k, In k (drawn acc) -> In k (drawn (fold_left addSide sides acc)))
  /\ (forall e, In e (edges (fold_left addSide sides acc)) ->
                In e (edges acc) \/ In e sides).
Proof.
  revert acc. induction sides as [|s sides IH]; intros acc Hok; simpl.
  - split; [exact Hok|]. split; [intros s []|]. split; auto.
  - destruct (addSide_ok acc s Hok) as (Hok1 & Hk1 & Hmono1 & Hed1).
    destruct (IH _ Hok1) as (Hok2 & Hk2 & Hmono2 & Hed2).
    repeat split; try apply Hok2.
    + intros s' [<-|Hs']; [apply Hmono2, Hk1 | apply Hk2, Hs'].
    + intros k Hk. apply Hmono2, Hmono1, Hk.
    + intros e He. destruct (Hed2 e He) as [H|H]; [|right; right; exact H].
      destruct (Hed1 e H) as [H'|H']; [left; exact H' | right; left; congruence].
Qed.



(** The key of two coordinate arrays does not depend on their order. *)
Lemma edge_key_sym (a b : Coord) :
  edge_key str (VCoord a) (VCoord b) = edge_key str (VCoord b) (VCoord a).
Proof.
  unfold edge_key, js_lt, String.ltb.
  generalize (vertex_to_string str (VCoord a)) (vertex_to_string str (VCoord b)).
  intros sa sb. rewrite (String.compare_antisym sb sa).
  destruct (String.compare sa sb) eqn:E; simpl; try reflexivity.
  apply String.compare_eq_iff in E. rewrite E. reflexivity.
Qed.


(** The keys of the edges returned are all different, and each edge is a
    side of a triangle. *)
Lemma getEdges_keys (T : Triangulator) :
  NoDup (map (fun e => edge_key str (fst e) (snd e)) (getEdges D str T))
  /\ (forall e, In e (getEdges D str T) -> In e (all_sides (getTriangles D false T))).
Proof.
  fold key. unfold getEdges. rewrite fold_addTriangle_as_sides.
  assert (Hok0 : acc_ok {| drawn := []; edges := [] |}).
  { split; [reflexivity | constructor]. }
  destruct (fold_addSide_ok (all_sides (getTriangles D false T)) _ Hok0)
    as ((Hd & Hn) & _ & _ & Hed).
  split.
  - rewrite <- (rev_involutive (map key _)), <- Hd. apply NoDup_rev, Hn.
  - intros e He. destruct (Hed e He) as [[]|H]. exact H.
Qed.

End Edges.



(* ===================================================================== *)
(** * [ImageRenderer] and [onLoad] *)
(* ===================================================================== *)

Section ImageRendering.

Variable fdiv : Q -> Q -> Q.
Variable fmul : Q -> Q -> Q.
Variable fsub : Q -> Q -> Q.
Variable set_width : Q -> Q.
Variable set_height : Q -> Q.

Lemma clampSize_some (r : ImageRenderer) (i : ImageInfo) (maxW maxH : Q) :
  info r = Some i ->
  clampSize fdiv fmul r maxW maxH
  = Some (if Qltb (Qmin (fdiv maxW (width i)) (fdiv maxH (height i))) 1
          then (fmul (width i) (Qmin (fdiv maxW (width i)) (fdiv maxH (height i))),
                fmul (height i) (Qmin (fdiv maxW (width i)) (fdiv maxH (height i))))
          else (width i, height i)).
Proof. intros H. unfold clampSize. rewrite H. reflexivity. Qed.

Lemma clampSize_same_info (r r' : ImageRenderer) (maxW maxH : Q) :
  info r' = info r ->
  clampSize fdiv fmul r' maxW maxH = clampSize fdiv fmul r maxW maxH.
Proof. intros H. unfold clampSize. rewrite H. reflexivity. Qed.

(** [clampSize] throws exactly when there is no size information.  When
    the image fits in the box it is given back with its own width and
    height, untouched by any arithmetic; this needs of the engine's
    division only that a quotient is at least 1 when the divisor is
    positive and not greater than the dividend. *)
Theorem clampSize_keeps_image_that_fits (r : ImageRenderer) (maxW maxH : Q) :
  (clampSize fdiv fmul r maxW maxH = None <-> info r = None)
  /\ (forall i : ImageInfo,
        (forall a b : Q, 0 < b -> b <= a -> 1 <= fdiv a b) ->
        info r = Some i ->
        0 < width i -> 0 < height i ->
        width i <= maxW -> height i <= maxH ->
        clampSize fdiv fmul r maxW maxH = Some (width i, height i)).
Proof.
  split.
  - unfold clampSize. destruct (info r); split; intros H; try discriminate;
      reflexivity.
  - intros i Hdiv Hi Hw Hh HW HH. rewrite (clampSize_some r i _ _ Hi).
    assert (H1 : 1 <= Qmin (fdiv maxW (width i)) (fdiv maxH (height i))).
    { apply Q.min_glb; apply Hdiv; assumption. }
    assert (E : Qltb (Qmin (fdiv maxW (width i)) (fdiv maxH (height i))) 1 = false).
    { apply Qltb_nlt. lra. }
    rewrite E. reflexivity.
Qed.

Lemma render_canvas (r : ImageRenderer) (canvSize : option (Q * Q)) :
  canvas (fst (render fdiv fmul fsub set_width set_height r canvSize))
  = match canvSize with
    | Some sz => {| canvas_width := set_width (fst sz);
                    canvas_height := set_height (snd sz) |}
    | None => canvas r
    end
  /\ info (fst (render fdiv fmul fsub set_width set_height r canvSize)) = info r.
Proof.
  unfold render.
  destruct (clampSize _ _ _ _ _) as [[imgW imgH]|]; simpl; split; reflexivity.
Qed.

Lemma render_draws (r : ImageRenderer) (i : ImageInfo) (canvSize : option (Q * Q)) :
  info r = Some i ->
  exists op, snd (render fdiv fmul fsub set_width set_height r canvSize) = Some op.
Proof.
  intros Hi. unfold render, clampSize. simpl. rewrite Hi.
  destruct (Qltb _ 1); eexists; reflexivity.
Qed.

Lemma render_pair (r : ImageRenderer) (canvSize : option (Q * Q)) :
  render fdiv fmul fsub set_width set_height r canvSize
  = (fst (render fdiv fmul fsub set_width set_height r canvSize),
     snd (render fdiv fmul fsub set_width set_height r canvSize)).
Proof.
  destruct (render fdiv fmul fsub set_width set_height r canvSize). reflexivity.
Qed.

(** The loader whose image gives the size: the first when both images
    have loaded, the one that has just loaded otherwise. *)
Let sizing_loader (which : LoaderId) (page : Page) : ImageRenderer :=
  match info (loader1 page), info (loader2 page) with
  | Some _, Some _ => loader1 page
  | _, _ => loader which page
  end.

Lemma onLoad_result (which : LoaderId) (page : Page) :
  info (loader which page) <> None ->
  exists (page' : Page) (ops : list (LoaderId * ImageOp)) (sz : Q * Q),
    onLoad fdiv fmul fsub set_width set_height which page = Some (page', ops)
    /\ clampSize fdiv fmul (sizing_loader which page') maxSize maxSize = Some sz
    /\ page_state page' = set_size sz (page_state page)
    /\ info (loader1 page') = info (loader1 page)
    /\ info (loader2 page') = info (loader2 page)
    /\ canvas (loader which page')
       = {| canvas_width := set_width (fst sz); canvas_height := set_height (snd sz) |}
    /\ (info (loader1 page') <> None -> info (loader2 page') <> None ->
          canvas (loader1 page') = canvas (loader2 page')).
Proof.
  intros Hwhich. unfold onLoad, sizing_loader.
  destruct (info (loader1 page)) as [i1|] eqn:H1;
    [destruct (info (loader2 page)) as [i2|] eqn:H2|].
  - destruct (clampSize fdiv fmul (loader1 page) maxSize maxSize) as [sz|] eqn:Hc;
      [|rewrite (clampSize_some _ i1 _ _ H1) in Hc; discriminate].
    rewrite (render_pair (loader1 page)), (render_pair (loader2 page)).
    destruct (render_draws (loader1 page) i1 (Some sz) H1) as [op1 Ho1].
    destruct (render_draws (loader2 page) i2 (Some sz) H2) as [op2 Ho2].
    destruct (render_canvas (loader1 page) (Some sz)) as [Hc1 Hi1].
    destruct (render_canvas (loader2 page) (Some sz)) as [Hc2 Hi2].
    rewrite Ho1, Ho2. eexists. eexists. exists sz.
    split; [reflexivity|]. cbn [loader1 loader2 page_state].
    rewrite Hi1, Hi2, H1, H2.
    split; [rewrite (clampSize_same_info _ _ _ _ Hi1); exact Hc|].
    split; [reflexivity|]. split; [reflexivity|]. split; [reflexivity|].
    split; [destruct which; cbn [loader loader1 loader2]; assumption|].
    intros _ _. rewrite Hc1, Hc2. reflexivity.
  - destruct (info (loader which page)) as [iw|] eqn:Hw; [|congruence].
    assert (which = Loader1) as -> by (destruct which; simpl in Hw; congruence).
    cbn [loader] in *.
    destruct (clampSize fdiv fmul (loader1 page) maxSize maxSize) as [sz|] eqn:Hc;
      [|rewrite (clampSize_some _ i1 _ _ H1) in Hc; discriminate].
    rewrite (render_pair (loader1 page)).
    destruct (render_draws (loader1 page) i1 (Some sz) H1) as [op1 Ho1].
    destruct (render_canvas (loader1 page) (Some sz)) as [Hc1 Hi1].
    rewrite Ho1. eexists. eexists. exists sz.
    split; [reflexivity|]. cbn [set_loader loader loader1 loader2 page_state].
    rewrite Hi1, H1, H2.
    split; [rewrite (clampSize_same_info _ _ _ _ Hi1); exact Hc|].
    split; [reflexivity|]. split; [reflexivity|]. split; [reflexivity|].
    split; [exact Hc1|]. intros _ Hn. congruence.
  - destruct (info (loader which page)) as [iw|] eqn:Hw; [|congruence].
    assert (which = Loader2) as -> by (destruct which; simpl in Hw; congruence).
    cbn [loader] in *.
    destruct (clampSize fdiv fmul (loader2 page) maxSize maxSize) as [sz|] eqn:Hc;
      [|rewrite (clampSize_some _ iw _ _ Hw) in Hc; discriminate].
    rewrite (render_pair (loader2 page)).
    destruct (render_draws (loader2 page) iw (Some sz) Hw) as [op2 Ho2].
    destruct (render_canvas (loader2 page) (Some sz)) as [Hc2 Hi2].
    rewrite Ho2. eexists. eexists. exists sz.
    split; [reflexivity|]. cbn [set_loader loader loader1 loader2 page_state].
    rewrite Hi2, H1.
    split; [rewrite (clampSize_same_info _ _ _ _ Hi2); exact Hc|].
    split; [reflexivity|]. split; [reflexivity|]. split; [reflexivity|].
    split; [exact Hc2|]. intros Hn _. congruence.
Qed.

(** When an image has loaded, [onLoad] does not throw.  The size it takes
    is the one [clampSize(500, 500)] gives for the first image when both
    images have loaded, and for the image that has just loaded otherwise.
    That size becomes the domain of both meshes at once; the points of
    both meshes and the selection stay as they are, whatever the new
    domain; the canvas of the loader is resized to it; and when both
    images have loaded both canvases get the same size. *)
Theorem image_loaded_sets_domain (which : LoaderId) (naturalWidth naturalHeight : positive)
    (page : Page) :
  exists (page' : Page) (ops : list (LoaderId * ImageOp)) (sz : Q * Q),
    image_loaded fdiv fmul fsub set_width set_height which naturalWidth naturalHeight page
    = Some (page', ops)
    /\ clampSize fdiv fmul
         (match info (loader1 page'), info (loader2 page') with
          | Some _, Some _ => loader1 page'
          | _, _ => loader which page'
          end) maxSize maxSize = Some sz
    /\ size (tri1 (page_state page')) = {| size_w := fst sz; size_h := snd sz |}
    /\ size (tri2 (page_state page')) = {| size_w := fst sz; size_h := snd sz |}
    /\ points (tri1 (page_state page')) = points (tri1 (page_state page))
    /\ points (tri2 (page_state page')) = points (tri2 (page_state page))
    /\ selectedIndex (page_state page') = selectedIndex (page_state page)
    /\ info (loader which page') <> None
    /\ canvas (loader which page')
       = {| canvas_width := set_width (fst sz); canvas_height := set_height (snd sz) |}
    /\ (info (loader1 page') <> None -> info (loader2 page') <> None ->
          canvas (loader1 page') = canvas (loader2 page')).
Proof.
  unfold image_loaded.
  set (page0 := set_loader which
                  (image_load fdiv (loader which page) naturalWidth naturalHeight) page).
  assert (Hw : info (loader which page0) <> None).
  { destruct which; simpl; discriminate. }
  destruct (onLoad_result which page0 Hw)
    as (page' & ops & sz & Hon & Hc & Hst & Hi1 & Hi2 & Hcv & Hsame).
  exists page', ops, sz. split; [exact Hon|]. split; [exact Hc|].
  assert (Hp : page_state page0 = page_state page) by (destruct which; reflexivity).
  rewrite Hst, Hp. cbn [set_size tri1 tri2 size points selectedIndex].
  repeat split; try assumption.
  destruct which; cbn [loader] in *; congruence.
Qed.

End ImageRendering.


(* ===================================================================== *)
(** * A drag from its first move to the release *)
(* ===================================================================== *)

Section Gesture.

Lemma update_at_length {A : Type} (f : A -> A) (l : list A) (n : nat) :
  length (update_at n f l) = length l.
Proof.
  revert n. induction l as [|x l IH]; intros [|n]; simpl; auto.
Qed.

Lemma js_update_length {A : Type} (f : A -> A) (l : list A) (index : Z) :
  length (js_update l index f) = length l.
Proof.
  unfold js_update. destruct (index <? 0)%Z; [reflexivity | apply update_at_length].
Qed.

Lemma update_at_past_end {A : Type} (f : A -> A) (l : list A) (n : nat) :
  nth_error l n = None -> update_at n f l = l.
Proof.
  revert n. induction l as [|x l IH]; intros [|n] H; simpl in *;
    try reflexivity; try discriminate.
  rewrite IH by assumption. reflexivity.
Qed.

Lemma js_update_out_of_range {A : Type} (f : A -> A) (l : list A) (index : Z) :
  js_index l index = None -> js_update l index f = l.
Proof.
  unfold js_index, js_update. destruct (index <? 0)%Z; [reflexivity|].
  apply update_at_past_end.
Qed.

(** The mesh a drag step returns, when it returns one. *)
Lemma dragMove_some (T T' : Triangulator) (index : Z) (pos : Coord) :
  dragMove T index pos = Some T' ->
  T' = {| size := size T;
          points := js_update (points T) index
                      (fun q => if above_threshold pos
                                then {| coord := pos; toDelete := true |}
                                else {| coord := (clamp (fst pos) 0 (size_w (size T)),
                                                  clamp (snd pos) 0 (size_h (size T)));
                                        toDelete := toDelete q |}) |}.
Proof.
  unfold dragMove, dragCallback, above_threshold.
  destruct (Qltb (snd pos) (- deleteThreshold)).
  - destruct (js_index (points T) index); [|discriminate].
    intros [= <-]. unfold onDragging. simpl. rewrite js_update_twice. reflexivity.
  - intros [= <-]. reflexivity.
Qed.

Lemma dragMove_length (T T' : Triangulator) (index : Z) (pos : Coord) :
  dragMove T index pos = Some T' ->
  size T' = size T /\ length (points T') = length (points T).
Proof.
  intros H. rewrite (dragMove_some _ _ _ _ H). simpl.
  split; [reflexivity | apply js_update_length].
Qed.

(** A drag step fails in one case only: there is no point at the index and
    the position is above the deletion threshold.  With no point at the
    index and a position that is not above it, the step changes nothing. *)
Theorem dragMove_fails_only_above_without_point (T : Triangulator) (index : Z)
    (pos : Coord) :
  (dragMove T index pos = None
   <-> js_index (points T) index = None /\ snd pos < - deleteThreshold)
  /\ (js_index (points T) index = None -> ~ snd pos < - deleteThreshold ->
      dragMove T index pos = Some T).
Proof.
  split; [split|].
  - unfold dragMove, dragCallback.
    destruct (Qltb (snd pos) (- deleteThreshold)) eqn:E; [|discriminate].
    apply Qltb_lt in E.
    destruct (js_index (points T) index); [discriminate|]. intros _. split; auto.
  - intros [Hn Hy]. apply Qltb_lt in Hy.
    unfold dragMove, dragCallback. rewrite Hy, Hn. reflexivity.
  - intros Hn Hy. apply Qltb_nlt in Hy.
    unfold dragMove, dragCallback. rewrite Hy. unfold onDragging.
    rewrite (js_update_out_of_range _ _ _ Hn). destruct T. reflexivity.
Qed.

Lemma dragMove_step (T : Triangulator) (index : Z) (pos : Coord) (p : Point) :
  js_index (points T) index = Some p ->
  exists (T' : Triangulator) (p' : Point),
    dragMove T index pos = Some T'
    /\ js_index (points T') index = Some p'
    /\ toDelete p' = (toDelete p || above_threshold pos)%bool
    /\ (forall j : Z, j <> index -> js_index (points T') j = js_index (points T) j).
Proof.
  intros Hp. unfold above_threshold.
  destruct (Qltb (snd pos) (- deleteThreshold)) eqn:E.
  - apply Qltb_lt in E.
    destruct (dragMove_above T index pos p Hp E) as (T' & Hd & _ & Hi & Ho).
    exists T'. eexists. split; [exact Hd|]. split; [exact Hi|].
    split; [simpl; rewrite orb_true_r; reflexivity | exact Ho].
  - apply Qltb_nlt in E.
    destruct (dragMove_inside T index pos p Hp E) as (T' & Hd & _ & Hi & Ho).
    exists T'. eexists. split; [exact Hd|]. split; [exact Hi|].
    split; [simpl; rewrite orb_false_r; reflexivity | exact Ho].
Qed.

(** The drag steps of a gesture on a point that exists never fail.  They
    keep the domain, the number of points and every other point; and the
    point dragged is marked for deletion afterwards exactly when it was
    marked before or one of the positions was above the threshold: no
    later position takes the mark away. *)
Theorem drag_moves_keep_mark (T : Triangulator) (index : Z) (poss : list Coord)
    (p : Point) :
  js_index (points T) index = Some p ->
  exists (T' : Triangulator) (p' : Point),
    dragMoves T index poss = Some T'
    /\ size T' = size T
    /\ length (points T') = length (points T)
    /\ js_index (points T') index = Some p'
    /\ toDelete p' = (toDelete p || existsb above_threshold poss)%bool
    /\ (forall j : Z, j <> index -> js_index (points T') j = js_index (points T) j).
Proof.
  revert T p. induction poss as [|pos poss IH]; intros T p Hp; simpl.
  - exists T, p. rewrite orb_false_r. repeat split; auto.
  - destruct (dragMove_step T index pos p Hp) as (T1 & p1 & Hd & Hi & Hm & Ho).
    rewrite Hd.
    destruct (dragMove_length _ _ _ _ Hd) as [Hs Hl].
    destruct (IH T1 p1 Hi) as (T' & p' & Hd' & Hs' & Hl' & Hi' & Hm' & Ho').
    exists T', p'. split; [exact Hd'|].
    split; [congruence|]. split; [congruence|]. split; [exact Hi'|].
    split.
    + rewrite Hm', Hm, orb_assoc. reflexivity.
    + intros j Hj. rewrite (Ho' j Hj). apply Ho, Hj.
Qed.

(** A position inside the domain is stored as it is: it is neither moved
    nor rounded, and the mark of the point is left as it was. *)
Theorem drag_inside_domain_stores_position (T : Triangulator) (index : Z)
    (pos : Coord) (p : Point) :
  js_index (points T) index = Some p ->
  0 <= fst pos <= size_w (size T) ->
  0 <= snd pos <= size_h (size T) ->
  exists (T' : Triangulator) (p' : Point),
    dragMove T index pos = Some T'
    /\ js_index (points T') index = Some p'
    /\ coord_eq (coord p') pos
    /\ toDelete p' = toDelete p.
Proof.
  intros Hp Hx Hy.
  assert (Hnot : ~ snd pos < - deleteThreshold).
  { unfold deleteThreshold. lra. }
  destruct (dragMove_inside T index pos p Hp Hnot) as (T' & Hd & _ & Hi & _).
  exists T'. eexists. split; [exact Hd|]. split; [exact Hi|].
  split; [|reflexivity].
  split; simpl; apply clamp_inside; assumption.
Qed.

End Gesture.

Section Release.

Lemma splice1_ext {A : Type} (l l' : list A) (n : nat) :
  length l' = length l ->
  (forall j : nat, j <> n -> nth_error l' j = nth_error l j) ->
  splice1 n l' = splice1 n l.
Proof.
  revert l' n. induction l as [|x l IH]; intros [|x' l'] n Hlen H;
    simpl in Hlen; try discriminate; [reflexivity|].
  destruct n as [|n]; simpl.
  - apply nth_error_ext. intros j. apply (H (S j)). discriminate.
  - assert (Hx : x' = x) by (specialize (H O); simpl in H; injection H; auto).
    subst x'. f_equal. apply IH; [congruence|].
    intros j Hj. apply (H (S j)). congruence.
Qed.

Lemma vue_delete_ext {A : Type} (l l' : list A) (index : Z) :
  length l' = length l ->
  (forall j : Z, j <> index -> js_index l' j = js_index l j) ->
  vue_delete l' index = vue_delete l index.
Proof.
  intros Hlen H. unfold vue_delete.
  destruct (Z.ltb_spec index 0) as [Hneg|Hpos].
  - apply nth_error_ext. intros j.
    specialize (H (Z.of_nat j)). unfold js_index in H.
    destruct (Z.ltb_spec (Z.of_nat j) 0); [lia|].
    rewrite Nat2Z.id in H. apply H. lia.
  - apply splice1_ext; [exact Hlen|].
    intros j Hj. specialize (H (Z.of_nat j)). unfold js_index in H.
    destruct (Z.ltb_spec (Z.of_nat j) 0); [lia|].
    rewrite Nat2Z.id in H. apply H. lia.
Qed.

Lemma dragMoves_without_point (T : Triangulator) (index : Z) (poss : list Coord) :
  js_index (points T) index = None ->
  dragMoves T index poss = None \/ dragMoves T index poss = Some T.
Proof.
  intros Hn. induction poss as [|pos poss IH]; simpl; [right; reflexivity|].
  destruct (Qltb (snd pos) (- deleteThreshold)) eqn:E.
  - left. unfold dragMove, dragCallback. rewrite E, Hn. reflexivity.
  - apply Qltb_nlt in E.
    rewrite (proj2 (dragMove_fails_only_above_without_point T index pos) Hn E).
    exact IH.
Qed.

Lemma onDeleted_after_moves (m : MeshId) (st : State) (T' : Triangulator) (index : Z) :
  size T' = size (mesh m st) ->
  length (points T') = length (points (mesh m st)) ->
  (forall j : Z, j <> index ->
     js_index (points T') j = js_index (points (mesh m st)) j) ->
  onDeleted (set_mesh m T' st) index = onDeleted st index.
Proof.
  intros Hs Hl Ho. unfold onDeleted.
  destruct m; simpl in *; rewrite Hs, (vue_delete_ext _ _ index Hl Ho); reflexivity.
Qed.

(** A whole drag of a point, from its first move to its release.  If the
    point was marked before, or if one of the positions was above the
    deletion threshold - also when later positions came back into the
    domain - the release deletes it, and the result is that of
    [onDeleted] on the pair as it was before the drag: the element at that
    index is gone from both meshes and nothing else has changed.
    Otherwise the release deletes nothing and both meshes keep their
    number of points.  On an index with no point the gesture ends in a
    [TypeError]. *)
Theorem gesture_deletes_iff_dragged_above (m : MeshId) (st : State) (index : Z)
    (poss : list Coord) :
  (js_index (points (mesh m st)) index = None ->
     dragGesture m st index poss = None)
  /\ (forall p : Point,
        js_index (points (mesh m st)) index = Some p ->
        (toDelete p || existsb above_threshold poss)%bool = true ->
        dragGesture m st index poss = Some (onDeleted st index))
  /\ (forall p : Point,
        js_index (points (mesh m st)) index = Some p ->
        (toDelete p || existsb above_threshold poss)%bool = false ->
        exists st' : State,
          dragGesture m st index poss = Some st'
          /\ length (points (tri1 st')) = length (points (tri1 st))
          /\ length (points (tri2 st')) = length (points (tri2 st))).
Proof.
  unfold dragGesture. split; [|split].
  - intros Hn.
    destruct (dragMoves_without_point (mesh m st) index poss Hn) as [-> | ->];
      [reflexivity|].
    unfold dragEnd.
    replace (mesh m (set_mesh m (mesh m st) st)) with (mesh m st)
      by (destruct m; reflexivity).
    rewrite Hn. reflexivity.
  - intros p Hp Hmark.
    destruct (drag_moves_keep_mark (mesh m st) index poss p Hp)
      as (T' & p' & Hd & Hs & Hl & Hi & Hm & Ho).
    rewrite Hd. unfold dragEnd.
    replace (mesh m (set_mesh m T' st)) with T' by (destruct m; reflexivity).
    rewrite Hi, Hm, Hmark. f_equal.
    apply onDeleted_after_moves; assumption.
  - intros p Hp Hmark.
    destruct (drag_moves_keep_mark (mesh m st) index poss p Hp)
      as (T' & p' & Hd & Hs & Hl & Hi & Hm & Ho).
    rewrite Hd. unfold dragEnd.
    replace (mesh m (set_mesh m T' st)) with T' by (destruct m; reflexivity).
    rewrite Hi, Hm, Hmark. eexists. split; [reflexivity|].
    destruct m; simpl in *; auto.
Qed.

Lemma kept_after_mark (f : Point -> Point) (l : list Point) (n : nat) (p : Point) :
  nth_error l n = Some p -> toDelete p = false -> toDelete (f p) = true ->
  S (length (kept (update_at n f l))) = length (kept l).
Proof.
  revert n. induction l as [|x l IH]; intros [|n] Hn Hp Hf; simpl in *;
    try discriminate.
  - injection Hn as ->. rewrite Hp, Hf. reflexivity.
  - specialize (IH n Hn Hp Hf). destruct (toDelete x); simpl; lia.
Qed.

(** Dragging an unmarked point above the threshold takes it out of the
    effective point list, which becomes one shorter, while the point list
    keeps its length: the point is still there until the release. *)
Theorem marked_point_leaves_effective_points (T : Triangulator) (index : Z)
    (pos : Coord) (p : Point) :
  js_index (points T) index = Some p ->
  toDelete p = false ->
  snd pos < - deleteThreshold ->
  exists T' : Triangulator,
    dragMove T index pos = Some T'
    /\ length (points T') = length (points T)
    /\ S (length (getEffectivePoints T')) = length (getEffectivePoints T).
Proof.
  intros Hp Hun Hy.
  destruct (dragMove_above T index pos p Hp Hy) as (T' & Hd & _).
  exists T'. split; [exact Hd|].
  split; [apply (dragMove_length _ _ _ _ Hd)|].
  rewrite (dragMove_some _ _ _ _ Hd).
  rewrite !getEffectivePoints_unfold, !length_app, !length_map. simpl.
  unfold js_index in Hp. unfold js_update.
  destruct (index <? 0)%Z; [discriminate|].
  match goal with
  | |- context [update_at _ ?f _] =>
      rewrite <- (kept_after_mark f (points T) (Z.to_nat index) p Hp Hun)
  end.
  - lia.
  - apply Qltb_lt in Hy. unfold above_threshold. rewrite Hy. reflexivity.
Qed.

End Release.

(* ===================================================================== *)
(** * Adding points: [onAdded] and the click *)
(* ===================================================================== *)

Section Adding.

Lemma Triangulator_eq (A B : Triangulator) :
  size A = size B -> points A = points B -> A = B.
Proof. destruct A, B. simpl. intros -> ->. reflexivity. Qed.

Lemma onAdded_loop_id (sp : list Point) (T : Triangulator) :
  (length sp <= length (points T))%nat -> onAdded_loop sp T = T.
Proof.
  intros H. apply Triangulator_eq.
  - apply onAdded_loop_size.
  - apply onAdded_loop_noop, H.
Qed.

Lemma onAdded_balanced_id (st : State) : balanced st -> onAdded st = st.
Proof.
  unfold balanced, onAdded. intros H.
  destruct (Nat.ltb_spec (length (points (tri2 st))) (length (points (tri1 st))));
    [lia|].
  rewrite onAdded_loop_id by lia. destruct st. reflexivity.
Qed.

Lemma onAdded_sizes (st : State) :
  size (tri1 (onAdded st)) = size (tri1 st)
  /\ size (tri2 (onAdded st)) = size (tri2 st)
  /\ selectedIndex (onAdded st) = selectedIndex st.
Proof.
  unfold onAdded.
  destruct (Nat.ltb (length (points (tri2 st))) (length (points (tri1 st))));
    simpl; rewrite ?onAdded_loop_size; auto.
Qed.

(** [onAdded] only ever appends.  It changes nothing in a pair whose lists
    have the same length, so that a second [onAdded] changes nothing after
    a first; it leaves the domains and the selection alone; and the common
    length it reaches is the greater of the two lengths. *)
Theorem onAdded_settles (st : State) :
  onAdded (onAdded st) = onAdded st
  /\ (balanced st -> onAdded st = st)
  /\ size (tri1 (onAdded st)) = size (tri1 st)
  /\ size (tri2 (onAdded st)) = size (tri2 st)
  /\ selectedIndex (onAdded st) = selectedIndex st
  /\ length (points (tri1 (onAdded st)))
     = Nat.max (length (points (tri1 st))) (length (points (tri2 st)))
  /\ length (points (tri2 (onAdded st)))
     = Nat.max (length (points (tri1 st))) (length (points (tri2 st))).
Proof.
  split; [apply onAdded_balanced_id, onAdded_balanced|].
  split; [apply onAdded_balanced_id|].
  destruct (onAdded_sizes st) as (H1 & H2 & H3).
  repeat split; try assumption.
  - rewrite (proj1 (onAdded_points st)), length_app, length_map, length_skipn. lia.
  - rewrite (proj2 (onAdded_points st)), length_app, length_map, length_skipn. lia.
Qed.

Lemma apply_add_sizes (st : State) (m : MeshId) (c : Coord) :
  size (tri1 (apply_op st (OpAdd m c))) = size (tri1 st)
  /\ size (tri2 (apply_op st (OpAdd m c))) = size (tri2 st)
  /\ selectedIndex (apply_op st (OpAdd m c)) = selectedIndex st.
Proof.
  simpl. destruct (onAdded_sizes (modelAddPoint m c st)) as (H1 & H2 & H3).
  rewrite H1, H2, H3. destruct m; auto.
Qed.

Lemma vue_delete_last {A : Type} (l : list A) (x : A) :
  vue_delete (l ++ [x]) (Z.of_nat (length l)) = l.
Proof.
  rewrite vue_delete_at.
  rewrite (skipn_all2 (l ++ [x])) by (rewrite length_app; simpl; lia).
  rewrite firstn_app, Nat.sub_diag, firstn_all. simpl.
  rewrite !app_nil_r. reflexivity.
Qed.

(** Adding a point to either mesh of a pair with lists of equal length,
    and then deleting at the index of the new point, gives back the pair
    as it was. *)
Theorem add_then_delete_restores (st : State) (m : MeshId) (c : Coord) :
  balanced st ->
  onDeleted (apply_op st (OpAdd m c)) (Z.of_nat (length (points (tri1 st)))) = st.
Proof.
  intros Hbal.
  destruct (add_to_balanced st m c Hbal) as [H1 H2].
  destruct (apply_add_sizes st m c) as (S1 & S2 & S3).
  unfold onDeleted. rewrite H1, H2, S1, S2, S3.
  rewrite vue_delete_last. unfold balanced in Hbal. rewrite Hbal, vue_delete_last.
  destruct st as [[s1 p1] [s2 p2] sel]. reflexivity.
Qed.

Lemma js_index_last {A : Type} (l : list A) (x : A) :
  js_index (l ++ [x]) (Z.of_nat (length l)) = Some x.
Proof.
  unfold js_index. destruct (Z.ltb_spec (Z.of_nat (length l)) 0); [lia|].
  rewrite Nat2Z.id, nth_error_app2, Nat.sub_diag by lia. reflexivity.
Qed.

(** A click on the drawing of either mesh, in a pair with lists of equal
    length and with at most one animation scheduled: afterwards the
    selected index is the index of the new point, the point at that index
    is the new point in both meshes, the lists have equal length again,
    and no animation is scheduled. *)
Theorem click_adds_and_selects (app : App) (m : MeshId) (c : Coord) :
  balanced (state app) ->
  single_animation app ->
  selectedIndex (state (componentAddPoint app m c))
  = Z.of_nat (length (points (tri1 (state app))))
  /\ js_index (points (tri1 (state (componentAddPoint app m c))))
              (selectedIndex (state (componentAddPoint app m c)))
     = Some (createPoint c)
  /\ js_index (points (tri2 (state (componentAddPoint app m c))))
              (selectedIndex (state (componentAddPoint app m c)))
     = Some (createPoint c)
  /\ balanced (state (componentAddPoint app m c))
  /\ running (componentAddPoint app m c) = [].
Proof.
  intros Hbal Hsingle.
  destruct (add_to_balanced (state app) m c Hbal) as [H1 H2].
  simpl in H1, H2.
  assert (Hsel : selectedIndex (state (componentAddPoint app m c))
                 = Z.of_nat (length (points (tri1 (state app))))).
  { unfold componentAddPoint, onSelected. cbn [state selectedIndex].
    unfold balanced in Hbal.
    destruct m; cbn [mesh]; [rewrite H1 | rewrite H2]; rewrite length_app;
      simpl; lia. }
  assert (Hst : tri1 (state (componentAddPoint app m c))
                = tri1 (onAdded (modelAddPoint m c (state app)))
                /\ tri2 (state (componentAddPoint app m c))
                   = tri2 (onAdded (modelAddPoint m c (state app)))).
  { unfold componentAddPoint, onSelected. simpl.
    destruct (stopAnim_keeps
                (with_state app (onAdded (modelAddPoint m c (state app)))))
      as (Hs & _). rewrite Hs. simpl. split; reflexivity. }
  destruct Hst as [Ht1 Ht2].
  split; [exact Hsel|]. rewrite Hsel, Ht1, Ht2, H1, H2.
  split; [apply js_index_last|].
  split; [unfold balanced in Hbal; rewrite Hbal; apply js_index_last|].
  split.
  - unfold balanced. rewrite Ht1, Ht2. apply onAdded_balanced.
  - unfold componentAddPoint, onSelected. simpl. apply stopAnim_stops.
    exact Hsingle.
Qed.

End Adding.

(* ===================================================================== *)
(** * The frames of a morph *)
(* ===================================================================== *)

Section Frames.

Variable D : list Coord -> list nat.

Lemma run_frames_cons (skip : bool) (st : State) (t : Q) (ts : list Q) :
  run_frames D skip st (t :: ts)
  = snd (frame D skip st t) :: run_frames D (negb skip) st ts.
Proof. destruct skip; reflexivity. Qed.

Lemma run_frames_nth (skip : bool) (st : State) (ts : list Q) (n : nat) (t : Q) :
  nth_error ts n = Some t ->
  nth_error (run_frames D skip st ts) n
  = Some (snd (frame D (if Nat.even n then skip else negb skip) st t)).
Proof.
  revert skip n. induction ts as [|t0 ts IH]; intros skip [|n] H; simpl in H;
    try discriminate.
  - injection H as ->. rewrite run_frames_cons. reflexivity.
  - rewrite run_frames_cons. simpl nth_error. rewrite (IH (negb skip) n H).
    rewrite Nat.even_succ, <- Nat.negb_even.
    destruct (Nat.even n); simpl; rewrite ?negb_involutive; reflexivity.
Qed.

(** Of the calls of [frame] that one animation makes, the first, the third
    and every other odd one write nothing; the second, the fourth and
    every other even one call [warpImage] for both canvases with the
    parameter of that call, [t] and [1 - t], and set the opacity to [t]. *)
Theorem frames_render_every_second_call (st : State) (ts : list Q) (n : nat) (t : Q) :
  nth_error ts n = Some t ->
  nth_error (run_frames D false st ts) n
  = Some (if Nat.even n
          then []
          else map OnC1 (warpImage D (tri1 st) (tri2 st) (Some t))
               ++ map OnC2 (warpImage D (tri2 st) (tri1 st) (Some (1 - t)))
               ++ [OpacityC2 t]).
Proof.
  intros H. rewrite (run_frames_nth false st ts n t H).
  destruct (Nat.even n); reflexivity.
Qed.

(** The triangles that [warpImage] takes from the source image are, in
    order, the coordinate triangles of the source mesh, those whose sides
    [getEdges] collects for the overlay. *)
Theorem warp_draws_the_overlay_triangles (A B : Triangulator) (lerpT : option Q) :
  flat_map source_triangle (warpImage D A B lerpT) = getTriangles D false A.
Proof.
  rewrite warpImage_unfold. cbn [flat_map source_triangle app].
  unfold getTriangles. fold (effectiveCoords A).
  induction (triplets (D (effectiveCoords A))) as [|[[a b] c] tr IH];
    cbn [map flat_map]; [reflexivity|].
  rewrite IH. unfold draw_of, source_triangle. cbn [app]. f_equal.
  destruct a, b, c; reflexivity.
Qed.

End Frames.

(* ===================================================================== *)
(** * The edges of a triangulation that is well formed *)
(* ===================================================================== *)

Section WellFormed.

Variable D : list Coord -> list nat.
Variable str : Q -> string.

Lemma NoDup_map_same {A B : Type} (f : A -> B) (l : list A) (x y : A) :
  NoDup (map f l) -> In x l -> In y l -> f x = f y -> x = y.
Proof.
  induction l as [|a l IH]; simpl; intros Hnd Hx Hy Hf; [contradiction|].
  inversion Hnd as [|? ? Hnotin Hnd']; subst.
  destruct Hx as [<-|Hx], Hy as [<-|Hy]; auto.
  - exfalso. apply Hnotin. rewrite Hf. apply in_map, Hy.
  - exfalso. apply Hnotin. rewrite <- Hf. apply in_map, Hx.
Qed.

(** No edge is returned twice, in the same direction or in the other:
    an edge between two coordinates and the edge back are both returned
    only when the two coordinates are the same. *)
Theorem getEdges_never_repeats_an_edge (T : Triangulator) :
  NoDup (getEdges D str T)
  /\ (forall a b : Coord,
        In (VCoord a, VCoord b) (getEdges D str T) ->
        In (VCoord b, VCoord a) (getEdges D str T) ->
        a = b).
Proof.
  destruct (getEdges_keys D str T) as [Hnd _]. split.
  - apply (NoDup_map_inv _ _ Hnd).
  - intros a b Hab Hba.
    assert (H : (VCoord a, VCoord b) = (VCoord b, VCoord a)).
    { apply (NoDup_map_same _ _ _ _ Hnd Hab Hba). simpl. apply edge_key_sym. }
    congruence.
Qed.

Lemma triplets_full (k : nat) (l : list nat) :
  length l = (3 * k)%nat ->
  length (triplets l) = k
  /\ Forall (fun tr => exists a b c : nat,
               tr = (Some a, Some b, Some c) /\ In a l /\ In b l /\ In c l)
            (triplets l).
Proof.
  revert l. induction k as [|k IH]; intros l Hl.
  - destruct l; [|discriminate]. split; [reflexivity | constructor].
  - destruct l as [|a [|b [|c rest]]]; simpl in Hl; try lia.
    destruct (IH rest ltac:(lia)) as [Hlen Hall]. simpl. split; [lia|].
    constructor.
    + exists a, b, c. repeat split; simpl; auto.
    + eapply Forall_impl; [|exact Hall].
      intros tr (x & y & z & -> & Hx & Hy & Hz).
      exists x, y, z. repeat split; simpl; auto.
Qed.

Lemma coord_at_in (co : list Coord) (i : nat) :
  (i < length co)%nat -> exists c, coord_at co i = VCoord c /\ In c co.
Proof.
  intros H. unfold coord_at.
  destruct (nth_error co i) as [c|] eqn:E.
  - exists c. split; [reflexivity | eapply nth_error_In, E].
  - apply nth_error_None in E. lia.
Qed.

Lemma all_sides_length (tris : list Triangle) :
  length (all_sides tris) = (3 * length tris)%nat.
Proof.
  unfold all_sides. induction tris as [|[[a b] c] tris IH]; simpl; [reflexivity|].
  simpl in IH. rewrite IH. lia.
Qed.

(** When the triangulation comes in whole triplets of indices that all
    point into the effective point list, there is one triangle for each
    triplet, every edge returned joins the coordinates of two effective
    points, and there are at most as many edges as indices. *)
Theorem edges_of_wellformed_triangulation (T : Triangulator) :
  (length (D (effectiveCoords T)) mod 3 = 0)%nat ->
  Forall (fun i => (i < length (effectiveCoords T))%nat) (D (effectiveCoords T)) ->
  (3 * length (getTriangles D false T))%nat = length (D (effectiveCoords T))
  /\ Forall (joins_effective_points T) (getEdges D str T)
  /\ (length (getEdges D str T) <= length (D (effectiveCoords T)))%nat.
Proof.
  intros Hmod Hrange.
  assert (Hk : exists k, length (D (effectiveCoords T)) = (3 * k)%nat).
  { exists (length (D (effectiveCoords T)) / 3)%nat.
    apply Nat.Div0.div_exact. exact Hmod. }
  destruct Hk as [k Hk].
  destruct (triplets_full k _ Hk) as [Hlen Hall].
  assert (Htris : length (getTriangles D false T) = k).
  { unfold getTriangles. fold (effectiveCoords T). rewrite length_map. exact Hlen. }
  destruct (getEdges_keys D str T) as [Hnd Hsub].
  split; [lia|]. split.
  - apply Forall_forall. intros e He. apply Hsub in He.
    unfold all_sides, getTriangles in He. fold (effectiveCoords T) in He.
    apply in_flat_map in He. destruct He as (t & Ht & He).
    apply in_map_iff in Ht. destruct Ht as (tr & <- & Htr).
    rewrite Forall_forall in Hall.
    destruct (Hall tr Htr) as (a & b & c & -> & Ha & Hb & Hc).
    rewrite Forall_forall in Hrange.
    destruct (coord_at_in _ a (Hrange a Ha)) as (ca & Eca & Hca).
    destruct (coord_at_in _ b (Hrange b Hb)) as (cb & Ecb & Hcb).
    destruct (coord_at_in _ c (Hrange c Hc)) as (cc & Ecc & Hcc).
    simpl in He. rewrite Eca, Ecb, Ecc in He.
    unfold joins_effective_points.
    destruct He as [<-|[<-|[<-|[]]]]; eauto 6.
  - rewrite Hk, <- Htris, <- all_sides_length.
    apply NoDup_incl_length; [apply (NoDup_map_inv _ _ Hnd) | exact Hsub].
Qed.

End WellFormed.

(* ===================================================================== *)
(** * Rounding and the indices of the effective points *)
(* ===================================================================== *)

Section Indices.

Lemma Math_round_nearest (x : Q) :
  exists z : Z, Math_round x = inject_Z z /\ x - (1 # 2) < inject_Z z <= x + (1 # 2).
Proof.
  exists (Qfloor (x + (1 # 2))). split; [reflexivity|].
  pose proof (Qfloor_le (x + (1 # 2))) as Hle.
  pose proof (Qlt_floor (x + (1 # 2))) as Hlt.
  rewrite inject_Z_plus in Hlt. change (inject_Z 1) with 1 in Hlt.
  split; lra.
Qed.

(** [createPoint] gives an unmarked point whose two coordinates are whole
    numbers, each the whole number nearest to the coordinate given, the
    upper one of two that are equally near; a point made from the
    coordinate of such a point is the same point. *)
Theorem createPoint_rounds_to_nearest (c : Coord) :
  toDelete (createPoint c) = false
  /\ (exists zx zy : Z,
        coord (createPoint c) = (inject_Z zx, inject_Z zy)
        /\ fst c - (1 # 2) < inject_Z zx <= fst c + (1 # 2)
        /\ snd c - (1 # 2) < inject_Z zy <= snd c + (1 # 2))
  /\ createPoint (coord (createPoint c)) = createPoint c.
Proof.
  split; [reflexivity|]. split.
  - destruct (Math_round_nearest (fst c)) as (zx & Ex & Hx).
    destruct (Math_round_nearest (snd c)) as (zy & Ey & Hy).
    exists zx, zy. simpl. unfold round_coord. rewrite Ex, Ey. auto.
  - apply twin_createPoint.
Qed.

Lemma kept_no_marks (l : list Point) :
  Forall (fun p => toDelete p = false) l -> kept l = l.
Proof.
  induction 1 as [|p l Hp _ IH]; [reflexivity|].
  unfold kept in *. cbn [filter]. rewrite Hp, IH. reflexivity.
Qed.

(** While no point is marked, the effective point list is the four corners
    followed by all the points, so that the point at index [k] is the
    effective point at index [4 + k]; and in a pair with lists of equal
    length both meshes then have the same number of effective points. *)
Theorem effective_index_of_a_point (st : State) :
  no_marks (tri1 st) -> no_marks (tri2 st) ->
  (forall k : nat,
     nth_error (getEffectivePoints (tri1 st)) (4 + k) = nth_error (points (tri1 st)) k)
  /\ (forall k : nat,
        nth_error (getEffectivePoints (tri2 st)) (4 + k) = nth_error (points (tri2 st)) k)
  /\ length (getEffectivePoints (tri1 st)) = (4 + length (points (tri1 st)))%nat
  /\ (balanced st ->
      length (effectiveCoords (tri1 st)) = length (effectiveCoords (tri2 st))).
Proof.
  intros H1 H2.
  assert (E1 := kept_no_marks _ H1). assert (E2 := kept_no_marks _ H2).
  repeat split.
  - intros k. rewrite getEffectivePoints_unfold, E1. reflexivity.
  - intros k. rewrite getEffectivePoints_unfold, E2. reflexivity.
  - rewrite getEffectivePoints_unfold, E1, length_app. reflexivity.
  - unfold balanced, effectiveCoords. intros Hb.
    rewrite !length_map, !getEffectivePoints_unfold, E1, E2, !length_app, Hb.
    reflexivity.
Qed.

End Indices.

(* ===================================================================== *)
(** * The statements above at concrete inputs *)
(* ===================================================================== *)

(** The exact quotient is at least 1 where the theorem asks it. *)
Lemma Qdiv_at_least_one (a b : Q) : 0 < b -> b <= a -> 1 <= a / b.
Proof. intros Hb Hab. apply Qle_shift_div_l; lra. Qed.

Lemma clampSize_keeps_image_that_fits_witness :
  info demo_renderer = Some demo_info
  /\ 0 < width demo_info /\ 0 < height demo_info
  /\ width demo_info <= 400 /\ height demo_info <= 1200
  /\ clampSize Qdiv Qmult demo_renderer 400 1200 = Some (333, 1000).
Proof.
  split; [reflexivity|]. split; [reflexivity|]. split; [reflexivity|].
  assert (HW : width demo_info <= 400) by (unfold Qle; simpl; lia).
  assert (HH : height demo_info <= 1200) by (unfold Qle; simpl; lia).
  split; [exact HW|]. split; [exact HH|].
  apply (proj2 (clampSize_keeps_image_that_fits Qdiv Qmult demo_renderer 400 1200)
           demo_info Qdiv_at_least_one eq_refl eq_refl eq_refl HW HH).
Defined.

(** An image of 333 by 1000 loads in the second loader of a page whose
    first image has not loaded: one half is an exact factor, the domain of
    both meshes becomes 166.5 by 500 and the canvas 166 by 500. *)
Example image_loaded_example :
  exists (page' : Page) (ops : list (LoaderId * ImageOp)),
    image_loaded Qdiv Qmult Qminus floor_dim floor_dim Loader2 333 1000 demo_page
    = Some (page', ops)
    /\ size_w (size (tri1 (page_state page'))) == 333 # 2
    /\ size_h (size (tri1 (page_state page'))) == 500
    /\ size (tri2 (page_state page')) = size (tri1 (page_state page'))
    /\ canvas (loader2 page') = {| canvas_width := 166; canvas_height := 500 |}
    /\ length ops = 1%nat.
Proof.
  eexists. eexists. split; [vm_compute; reflexivity|].
  repeat split.
Qed.

Lemma dragMove_fails_only_above_without_point_witness :
  js_index (points one_point_mesh) 3 = None
  /\ snd (10, -30) < - deleteThreshold
  /\ dragMove one_point_mesh 3 (10, -30) = None.
Proof.
  split; [reflexivity|]. split; [reflexivity|].
  apply (proj1 (dragMove_fails_only_above_without_point one_point_mesh 3 (10, -30))).
  split; reflexivity.
Defined.

Lemma drag_moves_keep_mark_witness :
  js_index (points one_point_mesh) 0 = Some (createPoint (100, 150))
  /\ exists (T' : Triangulator) (p' : Point),
       dragMoves one_point_mesh 0 [(100, -5); (90, -30); (80, 40)] = Some T'
       /\ size T' = size one_point_mesh
       /\ length (points T') = length (points one_point_mesh)
       /\ js_index (points T') 0 = Some p'
       /\ toDelete p' = true
       /\ (forall j : Z, j <> 0%Z ->
             js_index (points T') j = js_index (points one_point_mesh) j).
Proof.
  split; [reflexivity|].
  apply (drag_moves_keep_mark one_point_mesh 0 [(100, -5); (90, -30); (80, 40)]
           (createPoint (100, 150)) eq_refl).
Defined.

Lemma drag_inside_domain_stores_position_witness :
  js_index (points one_point_mesh) 0 = Some (createPoint (100, 150))
  /\ 0 <= fst (241 # 2, 17) <= size_w (size one_point_mesh)
  /\ 0 <= snd (241 # 2, 17) <= size_h (size one_point_mesh)
  /\ exists (T' : Triangulator) (p' : Point),
       dragMove one_point_mesh 0 (241 # 2, 17) = Some T'
       /\ js_index (points T') 0 = Some p'
       /\ coord_eq (coord p') (241 # 2, 17)
       /\ toDelete p' = false.
Proof.
  assert (Hx : 0 <= fst (241 # 2, 17) <= size_w (size one_point_mesh)).
  { unfold Qle. simpl. lia. }
  assert (Hy : 0 <= snd (241 # 2, 17) <= size_h (size one_point_mesh)).
  { unfold Qle. simpl. lia. }
  split; [reflexivity|]. split; [exact Hx|]. split; [exact Hy|].
  apply (drag_inside_domain_stores_position one_point_mesh 0 (241 # 2, 17)
           (createPoint (100, 150)) eq_refl Hx Hy).
Defined.

Lemma gesture_deletes_iff_dragged_above_witness :
  js_index (points (mesh Tri1 demo_state)) 0 = Some (createPoint (100, 150))
  /\ existsb above_threshold [(100, -5); (90, -30); (80, 40)] = true
  /\ dragGesture Tri1 demo_state 0 [(100, -5); (90, -30); (80, 40)]
     = Some (onDeleted demo_state 0).
Proof.
  split; [reflexivity|]. split; [reflexivity|].
  destruct (gesture_deletes_iff_dragged_above Tri1 demo_state 0
              [(100, -5); (90, -30); (80, 40)]) as (_ & H & _).
  apply (H (createPoint (100, 150)) eq_refl eq_refl).
Defined.

Lemma marked_point_leaves_effective_points_witness :
  js_index (points one_point_mesh) 0 = Some (createPoint (100, 150))
  /\ toDelete (createPoint (100, 150)) = false
  /\ snd (100, -21) < - deleteThreshold
  /\ exists T' : Triangulator,
       dragMove one_point_mesh 0 (100, -21) = Some T'
       /\ length (points T') = length (points one_point_mesh)
       /\ S (length (getEffectivePoints T')) = length (getEffectivePoints one_point_mesh).
Proof.
  split; [reflexivity|]. split; [reflexivity|]. split; [reflexivity|].
  apply (marked_point_leaves_effective_points one_point_mesh 0 (100, -21)
           (createPoint (100, 150)) eq_refl eq_refl eq_refl).
Defined.

Lemma onAdded_settles_witness :
  balanced demo_state /\ onAdded demo_state = demo_state.
Proof.
  split; [reflexivity|].
  destruct (onAdded_settles demo_state) as (_ & H & _).
  apply H. reflexivity.
Defined.

Lemma add_then_delete_restores_witness :
  balanced demo_state
  /\ onDeleted (apply_op demo_state (OpAdd Tri2 (7 # 2, 9)))
       (Z.of_nat (length (points (tri1 demo_state)))) = demo_state.
Proof.
  split; [reflexivity|].
  apply (add_then_delete_restores demo_state Tri2 (7 # 2, 9)). reflexivity.
Defined.

Lemma click_adds_and_selects_witness :
  balanced (state (initial_app demo_state))
  /\ single_animation (initial_app demo_state)
  /\ selectedIndex (state (componentAddPoint (initial_app demo_state) Tri2 (7 # 2, 9)))
     = 1%Z.
Proof.
  assert (Hs : single_animation (initial_app demo_state)) by (left; reflexivity).
  split; [reflexivity|]. split; [exact Hs|].
  apply (proj1 (click_adds_and_selects (initial_app demo_state) Tri2 (7 # 2, 9)
                  eq_refl Hs)).
Defined.

Lemma frames_render_every_second_call_witness :
  nth_error [0; 1 # 3; 2 # 3; 1] 1 = Some (1 # 3)
  /\ nth_error (run_frames delaunay_demo false demo_state [0; 1 # 3; 2 # 3; 1]) 1
     = Some (map OnC1 (warpImage delaunay_demo (tri1 demo_state) (tri2 demo_state)
                                  (Some (1 # 3)))
             ++ map OnC2 (warpImage delaunay_demo (tri2 demo_state) (tri1 demo_state)
                                    (Some (1 - (1 # 3))))
             ++ [OpacityC2 (1 # 3)]).
Proof.
  split; [reflexivity|].
  apply (frames_render_every_second_call delaunay_demo demo_state
           [0; 1 # 3; 2 # 3; 1] 1 (1 # 3) eq_refl).
Defined.

Lemma edges_of_wellformed_triangulation_witness :
  (length (delaunay_demo (effectiveCoords one_point_mesh)) mod 3 = 0)%nat
  /\ Forall (fun i => (i < length (effectiveCoords one_point_mesh))%nat)
            (delaunay_demo (effectiveCoords one_point_mesh))
  /\ Forall (joins_effective_points one_point_mesh)
            (getEdges delaunay_demo int_to_string one_point_mesh).
Proof.
  assert (H : Forall (fun i => (i < length (effectiveCoords one_point_mesh))%nat)
                     (delaunay_demo (effectiveCoords one_point_mesh))).
  { repeat constructor. }
  split; [reflexivity|]. split; [exact H|].
  apply (edges_of_wellformed_triangulation delaunay_demo int_to_string one_point_mesh
           eq_refl H).
Defined.

Lemma effective_index_of_a_point_witness :
  no_marks (tri1 demo_state) /\ no_marks (tri2 demo_state) /\ balanced demo_state
  /\ length (effectiveCoords (tri1 demo_state))
     = length (effectiveCoords (tri2 demo_state)).
Proof.
  assert (H1 : no_marks (tri1 demo_state)) by (repeat constructor).
  assert (H2 : no_marks (tri2 demo_state)) by (repeat constructor).
  split; [exact H1|]. split; [exact H2|]. split; [reflexivity|].
  destruct (effective_index_of_a_point demo_state H1 H2) as (_ & _ & _ & H).
  apply H. reflexivity.
Defined.
